(** * Probe and capture pipeline of the website monitor

    A shallow embedding of [src/app/api/screenshot/route.ts]: the site
    classifier [needsSpecialHandling], the two certificate strategies
    [getSSLCertificateInfo] and [checkSSLWithChecker], the liveness prober
    [checkWebsiteStatus], the capturer [takeScreenshot] and the route handler
    [POST].

    The network, the TLS stack, the headless browser and the clock are the
    environment of the program.  Every call into it is recorded in a trace and
    answered by an oracle that sees the trace so far, so that the same URL can
    be answered differently at different moments of a run.  Console logging is
    not part of the model. *)

From Equations Require Import Equations.
From Stdlib Require Import ZArith List Bool Lia Ascii String DecimalString.
Import ListNotations.

Open Scope string_scope.
Open Scope Z_scope.

(* ===================================================================== *)
(** ** JavaScript strings and values *)
(* ===================================================================== *)

(** Strings are byte strings; [toLowerCase] maps the letters A-Z and leaves
    every other byte alone (the Unicode case mapping of non-ASCII text is
    outside the model). *)

Definition lower_ascii (c : ascii) : ascii :=
  let n := nat_of_ascii c in
  if ((65 <=? n)%nat && (n <=? 90)%nat)%bool then ascii_of_nat (n + 32) else c.

Fixpoint toLowerCase (s : string) : string :=
  match s with
  | EmptyString => EmptyString
  | String c t => String (lower_ascii c) (toLowerCase t)
  end.

(** [s.startsWith(p)] *)
Definition startsWith (s p : string) : bool := String.prefix p s.

(** [s.includes(needle)]: [needle] starts at some position of [s]. *)
Fixpoint includes (s needle : string) : bool :=
  startsWith s needle ||
  match s with
  | EmptyString => false
  | String _ t => includes t needle
  end.

(** [s.endsWith(p)] *)
Fixpoint endsWith (s p : string) : bool :=
  (s =? p)%string ||
  match s with
  | EmptyString => false
  | String _ t => endsWith t p
  end.

(** [s.substring(0, n)] *)
Definition substring0 (n : nat) (s : string) : string := String.substring 0 n s.

(** Drops the first [n] characters: [s.substring(n)]. *)
Fixpoint drop (n : nat) (s : string) : string :=
  match n, s with
  | O, _ => s
  | S _, EmptyString => EmptyString
  | S k, String _ t => drop k t
  end.

(** Template-literal rendering of an integer number. *)
Definition string_of_Z (z : Z) : string := NilEmpty.string_of_int (Z.to_int z).

(** A string is truthy when it is not empty; [undefined] is falsy. *)
Definition truthy_string (s : string) : bool := negb (s =? "")%string.

Definition truthy (o : option string) : bool :=
  match o with
  | Some s => truthy_string s
  | None => false
  end.

(** [a || b] on optional strings. *)
Definition js_or (a b : option string) : option string :=
  if truthy a then a else b.

(** A thrown error object: [error.name] and [error.message]. *)
Module JsError.
Record t := mk { name : string; message : option string }.
End JsError.

(* ===================================================================== *)
(** ** Site classifier *)
(* ===================================================================== *)

Definition specialSites : list string :=
  [ "amazon.com"; "amazon.co.uk"; "amazon.de"; "amazon.fr"; "amazon.in";
    "amazon.ca"; "amazon.com.au"; "ebay.com"; "netflix.com"; "facebook.com";
    "instagram.com"; "twitter.com"; "linkedin.com" ].

(** [specialSites.some((site) => url.toLowerCase().includes(site))] *)
Definition needsSpecialHandling (url : string) : bool :=
  existsb (fun site => includes (toLowerCase url) site) specialSites.

(* ===================================================================== *)
(** ** URLs *)
(* ===================================================================== *)

(** A reduced model of the WHATWG [URL] class for [scheme://authority...]
    strings.  On an http or https URL any further slash or backslash after
    [://] is skipped and a backslash ends the authority like a slash; the
    authority ends at the first [/], [?] or [#]; user information up to the
    last [@] is dropped; a trailing [:digits] is the port; the host is
    lower-cased.  Parsing fails (the constructor throws) on an empty host,
    on a host with a space, [<], [>], [^] or [|] in it, and on a port above
    65535.  The port is the empty string when absent or equal to the default
    of the scheme.  The model is meant for hosts written in ASCII letters,
    digits, dots and hyphens: percent-escapes, tabs and line breaks inside
    the URL, IPv6 literals, numeric IPv4 shorthands and internationalised
    names, which the class rewrites, are outside of it. *)

Module URL.
Record t := mk { hostname : string; port : string }.
End URL.

Definition is_slash (special : bool) (c : ascii) : bool :=
  ((c =? "/")%char || (special && (c =? "\")%char))%bool.

Definition is_delim (special : bool) (c : ascii) : bool :=
  (is_slash special c || (c =? "?")%char || (c =? "#")%char)%bool.

Fixpoint take_authority (special : bool) (s : string) : string :=
  match s with
  | EmptyString => EmptyString
  | String c t =>
      if is_delim special c then EmptyString else String c (take_authority special t)
  end.

(** The slashes a special scheme ignores in front of the authority. *)
Fixpoint skip_slashes (special : bool) (s : string) : string :=
  match s with
  | EmptyString => EmptyString
  | String c t => if special && is_slash special c then skip_slashes special t else s
  end.

(** Characters a host may not contain. *)
Definition forbidden_in_host (c : ascii) : bool :=
  ((c =? " ")%char || (c =? "<")%char || (c =? ">")%char
   || (c =? "^")%char || (c =? "|")%char)%bool.

Fixpoint has_forbidden (s : string) : bool :=
  match s with
  | EmptyString => false
  | String c t => forbidden_in_host c || has_forbidden t
  end.

(** The part after the first ["://"]; none when the string has no scheme. *)
Fixpoint after_scheme (s : string) : option string :=
  if startsWith s "://" then Some (drop 3 s)
  else match s with
       | EmptyString => None
       | String _ t => after_scheme t
       end.

(** The part after the last [@], if any. *)
Fixpoint after_last_at (s : string) : option string :=
  match s with
  | EmptyString => None
  | String c t =>
      match after_last_at t with
      | Some r => Some r
      | None => if (c =? "@")%char then Some t else None
      end
  end.

Definition is_digit (c : ascii) : bool :=
  let n := nat_of_ascii c in ((48 <=? n)%nat && (n <=? 57)%nat)%bool.

Fixpoint all_digits (s : string) : bool :=
  match s with
  | EmptyString => true
  | String c t => is_digit c && all_digits t
  end.

(** Splits [host:port] at the last colon that is followed by digits only. *)
Fixpoint split_port (s : string) : string * option string :=
  match s with
  | EmptyString => (EmptyString, None)
  | String c t =>
      let (h, p) := split_port t in
      match p with
      | Some _ => (String c h, p)
      | None =>
          if ((c =? ":")%char && all_digits t)%bool then (EmptyString, Some t)
          else (String c h, None)
      end
  end.

(** [parseInt] on a string of decimal digits. *)
Fixpoint parseInt_acc (acc : Z) (s : string) : Z :=
  match s with
  | EmptyString => acc
  | String c t =>
      if is_digit c then parseInt_acc (10 * acc + (Z.of_nat (nat_of_ascii c) - 48)) t
      else acc
  end.

Definition parseInt (s : string) : Z := parseInt_acc 0 s.

Definition default_port (url : string) : option Z :=
  if startsWith (toLowerCase url) "https://" then Some 443
  else if startsWith (toLowerCase url) "http://" then Some 80
  else None.

(** [new URL(url)]; [None] when the constructor throws. *)
Definition new_URL (url : string) : option URL.t :=
  match after_scheme url with
  | None => None
  | Some rest =>
      let special := match default_port url with
                     | Some _ => true
                     | None => false
                     end in
      let authority := take_authority special (skip_slashes special rest) in
      let hostport :=
        match after_last_at authority with
        | Some r => r
        | None => authority
        end in
      let (host, p) := split_port hostport in
      if (host =? "")%string then None
      else if has_forbidden host then None
      else
        match p with
        | None => Some (URL.mk (toLowerCase host) "")
        | Some digits =>
            let n := parseInt digits in
            if (digits =? "")%string then Some (URL.mk (toLowerCase host) "")
            else if 65535 <? n then None
            else if match default_port url with
                    | Some d => n =? d
                    | None => false
                    end
                 then Some (URL.mk (toLowerCase host) "")
                 else Some (URL.mk (toLowerCase host) (string_of_Z n))
        end
  end.

(** The host component of a URL, empty when the URL does not parse. *)
Definition host_of (url : string) : string :=
  match new_URL url with
  | Some u => URL.hostname u
  | None => ""
  end.

(* ===================================================================== *)
(** ** The environment: calls, outcomes and oracles *)
(* ===================================================================== *)

(** Every call that leaves the program. *)
Inductive Call : Type :=
| Fetch (url : string)                            (* fetch(url, {method: "GET", ...}) *)
| TlsConnect (port : Z) (hostname : string)       (* tls.connect(port, hostname, ...) *)
| SslChecker (host : string)                      (* sslChecker(host, {method: "GET", port: 443}) *)
| Launch (args : list string)                     (* chromium.launch({headless, args}) *)
| NewPage                                         (* browser.newPage({userAgent}) *)
| SetViewportSize (width height : Z)
| SetDefaultTimeout (timeout : Z)
| SetDefaultNavigationTimeout (timeout : Z)
| Goto (url waitUntil : string) (timeout : Z)     (* page.goto(url, {waitUntil, timeout}) *)
| WaitForTimeout (ms : Z)                         (* page.waitForTimeout(ms) *)
| WaitRace (selectors : list string) (ms : Z)     (* Promise.race([waitForSelector..., waitForTimeout(ms)]) *)
| PageScreenshot (path : string)                  (* page.screenshot({path, clip, timeout}) *)
| Close                                           (* browser.close() *)
| Sleep (ms : Z).                                 (* new Promise(resolve => setTimeout(resolve, ms)) *)

(** The calls made so far, the most recent one first. *)
Definition Trace := list Call.

(** [fetch] resolves with a response or rejects with an error. *)
Inductive FetchOutcome : Type :=
| Responded (status : Z)
| Rejected (error : JsError.t).

(** [response.ok]: the status code is in the range 200-299. *)
Definition ok (status : Z) : bool := (200 <=? status) && (status <=? 299).

(** The peer certificate.  [valid_from] and [valid_to] are date strings in
    the source; the model carries the epoch milliseconds [new Date] parses
    them to, and [None] for a field that is absent or empty. *)
Record PeerCertificate := { valid_from : option Z; valid_to : option Z }.

(** What happens to the socket of [tls.connect]: the secure-connect callback
    runs and [getPeerCertificate()] gives a certificate (or nothing), the
    socket emits ['error'], or the 5000 ms idle timeout fires. *)
Inductive TlsOutcome : Type :=
| SecureConnect (cert : option PeerCertificate)
| SocketError
| SocketTimeout.

(** What [sslChecker] resolves with, or that it rejects. *)
Inductive CheckerOutcome : Type :=
| Checked (valid : bool) (validFrom validTo : string) (daysRemaining : Z)
| CheckerRejected.

Record Env := {
  (** [Date.now()] and [new Date()], in epoch milliseconds *)
  Date_now : Trace -> Z;
  fetch_outcome : Trace -> string -> FetchOutcome;
  tls_outcome : Trace -> Z -> string -> TlsOutcome;
  checker_outcome : Trace -> string -> CheckerOutcome;
  (** a browser call resolves ([None]) or throws *)
  browser_outcome : Trace -> Call -> option JsError.t;
  (** [date.toISOString().split('T')[0]] *)
  isoDate : Z -> string;
  (** [process.cwd()] *)
  cwd : string
}.

(** Computations that call the environment. *)
Definition M (A : Type) : Type := Trace -> A * Trace.

Definition ret {A} (a : A) : M A := fun h => (a, h).

Definition bind {A B} (m : M A) (k : A -> M B) : M B :=
  fun h => let (a, h') := m h in k a h'.

Declare Scope io_scope.
Delimit Scope io_scope with io.
Notation "x <- m ;; k" := (bind m (fun x => k))
  (at level 100, m at next level, right associativity) : io_scope.
Notation "m ;;; k" := (bind m (fun _ => k))
  (at level 100, right associativity) : io_scope.

(** Reads the clock. *)
Definition now (env : Env) : M Z := fun h => (Date_now env h, h).

(** Records a call that has no outcome of interest. *)
Definition tell (c : Call) : M unit := fun h => (tt, c :: h).

Definition fetch (env : Env) (url : string) : M FetchOutcome :=
  fun h => (fetch_outcome env h url, Fetch url :: h).

Definition tls_connect (env : Env) (port : Z) (hostname : string) : M TlsOutcome :=
  fun h => (tls_outcome env h port hostname, TlsConnect port hostname :: h).

Definition sslChecker (env : Env) (host : string) : M CheckerOutcome :=
  fun h => (checker_outcome env h host, SslChecker host :: h).

(* ===================================================================== *)
(** ** Certificate strategies *)
(* ===================================================================== *)

Module SslInfo.
Record t := mk {
  ssl_valid : bool;
  ssl_expire_date : option string;
  ssl_expires : option string;
  ssl_days_remaining : option Z;
  ssl_renew_date : option string;
  ssl_issued_date : option string
}.

(** [{ ssl_valid: false }] *)
Definition invalid : t := mk false None None None None None.
End SslInfo.

Definition ms_per_day : Z := 1000 * 60 * 60 * 24.

(** The secure-connect callback of [getSSLCertificateInfo], run at time
    [now].  [Math.floor] of the quotient is [Z.div]: the dates of a
    certificate are far below the range where the floating-point quotient
    could round to the next integer. *)
Definition on_secure_connect (env : Env) (now : Z) (cert : option PeerCertificate)
  : SslInfo.t :=
  match cert with
  | Some {| valid_from := Some validFrom; valid_to := Some validTo |} =>
      let isValid := (validFrom <=? now) && (now <=? validTo) in
      let daysRemaining := (validTo - now) / ms_per_day in
      let expire_date := isoDate env validTo in
      let issued_date := isoDate env validFrom in
      SslInfo.mk isValid (Some expire_date) (Some expire_date)
                 (Some daysRemaining) (Some issued_date) (Some issued_date)
  | _ => SslInfo.invalid
  end.

(** Native TLS strategy. *)
Definition getSSLCertificateInfo (env : Env) (url : string) : M SslInfo.t :=
  if negb (startsWith url "https://") then ret SslInfo.invalid
  else
    match new_URL url with
    | None => ret SslInfo.invalid
    | Some urlObj =>
        let hostname := URL.hostname urlObj in
        let port := if truthy_string (URL.port urlObj)
                    then parseInt (URL.port urlObj) else 443 in
        (outcome <- tls_connect env port hostname ;;
         match outcome with
         | SecureConnect cert =>
             now <- now env ;;
             ret (on_secure_connect env now cert)
         | SocketError => ret SslInfo.invalid
         | SocketTimeout => ret SslInfo.invalid
         end)%io
    end.

(** [url.replace(/^https?:\/\//, "").replace(/\/$/, "")] *)
Definition checker_host (url : string) : string :=
  let s := if startsWith url "https://" then drop 8 url
           else if startsWith url "http://" then drop 7 url
           else url in
  if endsWith s "/" then substring0 (String.length s - 1) s else s.

(** Strategy of the ssl-checker package. *)
Definition checkSSLWithChecker (env : Env) (url : string) : M SslInfo.t :=
  if negb (startsWith url "https://") then ret SslInfo.invalid
  else
    (outcome <- sslChecker env (checker_host url) ;;
     match outcome with
     | Checked valid validFrom validTo daysRemaining =>
         ret (SslInfo.mk valid (Some validTo) (Some validTo)
                         (Some daysRemaining) (Some validFrom) (Some validFrom))
     | CheckerRejected => ret SslInfo.invalid
     end)%io.

(** The block both branches of [checkWebsiteStatus] run to fill [sslInfo]:
    the native strategy, then the checker when the native one is not valid. *)
Definition selectSslInfo (env : Env) (url : string) : M SslInfo.t :=
  if startsWith url "https://" then
    (nativeSslInfo <- getSSLCertificateInfo env url ;;
     if SslInfo.ssl_valid nativeSslInfo then ret nativeSslInfo
     else
       checkerSslInfo <- checkSSLWithChecker env url ;;
       if SslInfo.ssl_valid checkerSslInfo then ret checkerSslInfo
       else ret SslInfo.invalid)%io
  else ret SslInfo.invalid.

(* ===================================================================== *)
(** ** Liveness prober *)
(* ===================================================================== *)

Inductive Status : Type := Up | Down | Error.

Definition Status_eqb (a b : Status) : bool :=
  match a, b with
  | Up, Up | Down, Down | Error, Error => true
  | _, _ => false
  end.

Module StatusCheck.
Record t := mk {
  status : Status;
  ssl_valid : bool;
  ssl_renew_date : option string;
  ssl_issued_date : option string;
  ssl_expire_date : option string;
  ssl_expires : option string;
  ssl_days_remaining : option Z;
  response_time : option Z;
  error_message : option string
}.
End StatusCheck.

(** The message the catch block of [checkWebsiteStatus] derives. *)
Definition probe_error_message (error : JsError.t) : string :=
  if (JsError.name error =? "AbortError")%string then "Request timeout"
  else match JsError.message error with
       | Some m => if truthy_string m then substring0 100 m else "Connection failed"
       | None => "Connection failed"
       end.

Definition checkWebsiteStatus (env : Env) (url : string) : M StatusCheck.t :=
  (startTime <- now env ;;
   let isSpecialSite := needsSpecialHandling url in
   outcome <- fetch env url ;;
   match outcome with
   | Responded code =>
       t <- now env ;;
       let response_time := t - startTime in
       sslInfo <- selectSslInfo env url ;;
       ret (StatusCheck.mk
              (if ok code then Up else Down)
              (startsWith url "https://" && (ok code || SslInfo.ssl_valid sslInfo))
              (SslInfo.ssl_renew_date sslInfo)
              (js_or (SslInfo.ssl_issued_date sslInfo) (SslInfo.ssl_renew_date sslInfo))
              (SslInfo.ssl_expire_date sslInfo)
              (js_or (SslInfo.ssl_expires sslInfo) (SslInfo.ssl_expire_date sslInfo))
              (SslInfo.ssl_days_remaining sslInfo)
              (Some response_time)
              None)
   | Rejected error =>
       t <- now env ;;
       let response_time := t - startTime in
       let error_message := probe_error_message error in
       sslInfo <- selectSslInfo env url ;;
       ret (StatusCheck.mk
              Error
              (SslInfo.ssl_valid sslInfo)
              (SslInfo.ssl_renew_date sslInfo)
              (js_or (SslInfo.ssl_issued_date sslInfo) (SslInfo.ssl_renew_date sslInfo))
              (SslInfo.ssl_expire_date sslInfo)
              (js_or (SslInfo.ssl_expires sslInfo) (SslInfo.ssl_expire_date sslInfo))
              (SslInfo.ssl_days_remaining sslInfo)
              (Some response_time)
              (Some error_message))
   end)%io.

(* ===================================================================== *)
(** ** Screenshot capturer *)
(* ===================================================================== *)

(** Browser calls that may throw: the computation stops at the first error. *)
Definition B (A : Type) : Type := Trace -> (JsError.t + A) * Trace.

Definition retB {A} (a : A) : B A := fun h => (inr a, h).

Definition bindB {A C} (m : B A) (k : A -> B C) : B C :=
  fun h =>
    match m h with
    | (inl e, h') => (inl e, h')
    | (inr a, h') => k a h'
    end.

Declare Scope browser_scope.
Delimit Scope browser_scope with browser.
Notation "x <- m ;; k" := (bindB m (fun x => k))
  (at level 100, m at next level, right associativity) : browser_scope.
Notation "m ;;; k" := (bindB m (fun _ => k))
  (at level 100, right associativity) : browser_scope.

(** [await c] for a browser call [c]. *)
Definition await (env : Env) (c : Call) : B unit :=
  fun h =>
    match browser_outcome env h c with
    | Some e => (inl e, c :: h)
    | None => (inr tt, c :: h)
    end.

(** A computation that cannot throw, inside a [try] block. *)
Definition lift {A} (m : M A) : B A := fun h => let (a, h') := m h in (inr a, h').

(** [try { m } catch (waitError) { console.log(...) }] *)
Definition swallow (m : B unit) : B unit :=
  fun h => let (_, h') := m h in (inr tt, h').

Definition launch_args (isSpecialSite : bool) : list string :=
  ([ "--no-sandbox"; "--disable-setuid-sandbox"; "--disable-dev-shm-usage";
     "--disable-accelerated-2d-canvas"; "--disable-gpu"; "--window-size=1920x1080";
     "--disable-blink-features=AutomationControlled"; "--disable-web-security";
     "--disable-features=VizDisplayCompositor"; "--disable-http2";
     "--disable-background-networking" ]
   ++ (if isSpecialSite
       then [ "--disable-background-timer-throttling";
              "--disable-backgrounding-occluded-windows";
              "--disable-renderer-backgrounding" ]
       else []))%list.

(** [path.join(process.cwd(), "public", "screenshots")] *)
Definition screenshotsDir (env : Env) : string := cwd env ++ "/public/screenshots".

(** The [try] block of [takeScreenshot] after the browser is launched.  The
    template literal of the file name is modelled for an [id] and a reading
    of the clock that are safe integers, which it prints digit by digit. *)
Definition capture_page (env : Env) (url : string) (id : Z) (isSpecialSite : bool)
  : B string :=
  (await env NewPage ;;;
   await env (SetViewportSize 1920 1080) ;;;
   let timeout := if isSpecialSite then 60000 else 45000 in
   lift (tell (SetDefaultTimeout timeout)) ;;;
   lift (tell (SetDefaultNavigationTimeout timeout)) ;;;
   let waitUntil := if isSpecialSite then "domcontentloaded" else "networkidle" in
   await env (Goto url waitUntil timeout) ;;;
   (if isSpecialSite then
      await env (WaitForTimeout 5000) ;;;
      swallow (await env (WaitRace ["body"; "[data-testid]"; ".nav-logo"] 10000)) ;;;
      await env (WaitForTimeout 5000)
    else
      swallow (await env (WaitRace ["body"] 5000) ;;;
               await env (WaitForTimeout 3000))) ;;;
   t <- lift (now env) ;;
   let fileName := string_of_Z id ++ "_" ++ string_of_Z t ++ ".png" in
   let filePath := screenshotsDir env ++ "/" ++ fileName in
   await env (PageScreenshot filePath) ;;;
   retB ("/screenshots/" ++ fileName))%browser.

(** What one call of [takeScreenshot] has done when its [try] block ends. *)
Module Attempt.
Record t := mk {
  caller_close : JsError.t + unit;  (* how the caller's [finally] block ended *)
  browser : bool;                   (* whether [browser] was assigned *)
  outcome : JsError.t + string;     (* the path returned, or the error thrown *)
  trace : Trace
}.
End Attempt.

(** [if (browser) { await browser.close(); }]: the call can reject like any
    other call of the browser. *)
Definition close_if (env : Env) (browser : bool) : B unit :=
  if browser then await env Close else retB tt.

(** The start of a call, up to the end of its [try] block.
    [chromium.launch] is the first call it makes.  [caller] is [true] when
    the call was made by [return takeScreenshot(url, id, retryCount + 1)]
    in the [catch] block of a call that holds a browser: that promise is
    returned without [await], so the [finally] block of the caller runs as
    soon as this call has issued its launch, and the [browser.close()] of
    the caller is the next call in the trace.  The top call has no such
    caller.  The [try] block goes on to the page when the launch resolved. *)
Definition attempt (env : Env) (url : string) (id : Z) (caller : bool)
  : Trace -> Attempt.t :=
  fun h =>
    let isSpecialSite := needsSpecialHandling url in
    let (launched, h1) := await env (Launch (launch_args isSpecialSite)) h in
    let (caller_close, h2) := close_if env caller h1 in
    match launched with
    | inl e => Attempt.mk caller_close false (inl e) h2
    | inr _ =>
        let (r, h3) := capture_page env url id isSpecialSite h2 in
        Attempt.mk caller_close true r h3
    end.

(** The [finally] block: the browser is closed, and a closing that throws
    replaces what the function was about to return or throw. *)
Definition finally (env : Env) (browser : bool) (completion : JsError.t + option string)
  : B (option string) :=
  fun h =>
    match close_if env browser h with
    | (inl e, h') => (inl e, h')
    | (inr _, h') => (completion, h')
    end.

(** What the promise of the caller settles to.  When the [finally] block of
    the caller threw, that error is the outcome of the caller, whatever the
    call it returned comes to; the calls that call still makes are in the
    trace all the same. *)
Definition settle (caller_close : JsError.t + unit)
  (result : (JsError.t + option string) * Trace) : (JsError.t + option string) * Trace :=
  match caller_close with
  | inl e => (inl e, snd result)
  | inr _ => result
  end.

(** [error?.message && (error.message.includes("timeout") ||
    error.message.includes("Navigation"))] *)
Definition retriable (error : JsError.t) : bool :=
  match JsError.message error with
  | Some m => truthy_string m && (includes m "timeout" || includes m "Navigation")
  | None => false
  end.

(** Retries still allowed at attempt [retryCount]. *)
Definition retries_left (retryCount : Z) : nat := Z.to_nat (1 - retryCount).
Arguments retries_left : simpl never.

(** A call of [takeScreenshot(url, id, retryCount)], made by a caller that
    holds a browser or not (see [attempt]).  The recursive call is guarded
    by [retryCount < 1] and made with [retryCount + 1], so [retries_left]
    decreases.  In the [catch] block a closing that throws leaves the block
    for the [finally] block; otherwise the pause and the recursive call
    follow, and the [finally] block of this call is the caller's closing
    inside that call. *)
Equations? takeScreenshot_call (env : Env) (url : string) (id : Z) (retryCount : Z)
  (caller : bool) (h : Trace) : (JsError.t + option string) * Trace
  by wf (retries_left retryCount) lt :=
  takeScreenshot_call env url id retryCount caller h with attempt env url id caller h => {
    | Attempt.mk caller_close browser (inr path) h1 =>
        settle caller_close (finally env browser (inr (Some path)) h1)
    | Attempt.mk caller_close browser (inl error) h1 with Z_lt_dec retryCount 1 => {
      | left _ with retriable error => {
        | true with close_if env browser h1 => {
          | (inl e, h2) => settle caller_close (finally env browser (inl e) h2)
          | (inr _, h2) =>
              let (_, h3) := tell (Sleep 2000) h2 in
              settle caller_close
                (takeScreenshot_call env url id (retryCount + 1) browser h3) }
        | false => settle caller_close (finally env browser (inr None) h1) }
      | right _ => settle caller_close (finally env browser (inr None) h1) } }.
Proof. unfold retries_left. lia. Qed.

(** [takeScreenshot(url, id, retryCount)] as [POST] calls and awaits it. *)
Definition takeScreenshot (env : Env) (url : string) (id : Z) (retryCount : Z)
  : B (option string) :=
  takeScreenshot_call env url id retryCount false.

(* ===================================================================== *)
(** ** Route handler *)
(* ===================================================================== *)

(** Modelled from the spec: the [Website] type of [@/lib/supabase], whose
    declaration is not part of the sources at hand; the spec gives a site as
    [{ id: integer, url: string }]. *)
Record Website := { id : Z; url : string }.

(** The value found under [websites] in the request body.  The annotation
    types it as [Website[]], so an array holds site records; the guard of
    [POST] is what meets the other shapes. *)
Inductive JsValue : Type :=
| JsUndefined                     (* the body has no such property *)
| JsNull
| JsBoolean (b : bool)
| JsNumber (n : Z)
| JsString (s : string)
| JsObject                        (* an object that is not an array *)
| JsArray (elements : list Website).

(** [!!v] *)
Definition to_boolean (v : JsValue) : bool :=
  match v with
  | JsUndefined | JsNull => false
  | JsBoolean b => b
  | JsNumber n => negb (n =? 0)
  | JsString s => truthy_string s
  | JsObject | JsArray _ => true
  end.

(** [Array.isArray(v)] *)
Definition isArray (v : JsValue) : bool :=
  match v with
  | JsArray _ => true
  | _ => false
  end.

(** The elements a [for ... of] loop visits; only used on arrays. *)
Definition elements_of (v : JsValue) : list Website :=
  match v with
  | JsArray l => l
  | _ => []
  end.

(** What [await request.json()] gives: it rejects on a body that is not
    JSON, and destructuring [{ websites }] throws on [null]. *)
Inductive RequestBody : Type :=
| NotJson
| NullBody
| Body (websites : JsValue).

Module ScreenshotResult.
Record t := mk {
  id : Z;
  url : string;
  screenshot_path : option string;
  status : Status;
  ssl_valid : bool;
  ssl_renew_date : option string;
  ssl_issued_date : option string;
  ssl_expire_date : option string;
  ssl_expires : option string;
  ssl_days_remaining : option Z;
  response_time : option Z;
  error_message : option string
}.
End ScreenshotResult.

(** [NextResponse.json(...)] *)
Inductive Response : Type :=
| Results (results : list ScreenshotResult.t)           (* status 200 *)
| Failure (status : Z) (error : string).                (* { error }, { status } *)

(** The override of the loop body: a screenshot with a status other than
    ["up"] turns the status into ["up"] and, on an https URL, [ssl_valid]
    into [true]. *)
Definition override (website : Website) (screenshot_path : option string)
  (statusCheck : StatusCheck.t) : StatusCheck.t :=
  if truthy screenshot_path && negb (Status_eqb (StatusCheck.status statusCheck) Up)
  then
    StatusCheck.mk
      Up
      (if startsWith (url website) "https://" then true
       else StatusCheck.ssl_valid statusCheck)
      (StatusCheck.ssl_renew_date statusCheck)
      (StatusCheck.ssl_issued_date statusCheck)
      (StatusCheck.ssl_expire_date statusCheck)
      (StatusCheck.ssl_expires statusCheck)
      (StatusCheck.ssl_days_remaining statusCheck)
      (StatusCheck.response_time statusCheck)
      (StatusCheck.error_message statusCheck)
  else statusCheck.

(** The [result] object built from the reconciled [statusCheck]. *)
Definition make_result (website : Website) (screenshot_path : option string)
  (statusCheck : StatusCheck.t) : ScreenshotResult.t :=
  ScreenshotResult.mk
    (id website)
    (url website)
    screenshot_path
    (StatusCheck.status statusCheck)
    (StatusCheck.ssl_valid statusCheck)
    (StatusCheck.ssl_renew_date statusCheck)
    (StatusCheck.ssl_issued_date statusCheck)
    (StatusCheck.ssl_expire_date statusCheck)
    (StatusCheck.ssl_expires statusCheck)
    (StatusCheck.ssl_days_remaining statusCheck)
    (StatusCheck.response_time statusCheck)
    (if truthy screenshot_path then None else StatusCheck.error_message statusCheck).

(** One iteration of the loop of [POST].  The probe never throws; an error
    the capture throws leaves the loop. *)
Definition process_website (env : Env) (website : Website) : B ScreenshotResult.t :=
  (statusCheck <- lift (checkWebsiteStatus env (url website)) ;;
   shot <- takeScreenshot env (url website) (id website) 0 ;;
   let screenshot_path := if truthy shot then shot else None in
   let statusCheck := override website screenshot_path statusCheck in
   retB (make_result website screenshot_path statusCheck))%browser.

(** [for (const website of websites) { ...; results.push(result); }] *)
Fixpoint process_websites (env : Env) (websites : list Website)
  (results : list ScreenshotResult.t) : B (list ScreenshotResult.t) :=
  match websites with
  | [] => retB results
  | website :: rest =>
      (result <- process_website env website ;;
       process_websites env rest (results ++ [result])%list)%browser
  end.

(** [try { m } catch (error) { handler }] around the body of a function. *)
Definition try_catch {A} (m : B A) (handler : JsError.t -> M A) : M A :=
  fun h =>
    match m h with
    | (inr a, h') => (a, h')
    | (inl error, h') => handler error h'
    end.

Definition POST (env : Env) (request : RequestBody) : M Response :=
  match request with
  | NotJson | NullBody => ret (Failure 500 "Internal server error")
  | Body websites =>
      if negb (to_boolean websites) || negb (isArray websites)
         || (List.length (elements_of websites) =? 0)%nat
      then ret (Failure 400 "No websites provided")
      else
        try_catch
          (results <- process_websites env (elements_of websites) [] ;;
           retB (Results results))%browser
          (fun _ => ret (Failure 500 "Internal server error"))
  end.

(* ===================================================================== *)
(** ** Sample environments *)
(* ===================================================================== *)

(** A clock that advances one second per call. *)
Definition ticking (h : Trace) : Z := 1700000000000 + 1000 * Z.of_nat (List.length h).

(** Every site answers 200, pages render, and the certificate runs out
    forty days and an hour after the start of the clock. *)
Definition healthy : Env := {|
  Date_now := ticking;
  fetch_outcome := fun _ _ => Responded 200;
  tls_outcome := fun _ _ _ =>
    SecureConnect (Some {| valid_from := Some 1695000000000;
                           valid_to := Some 1703459600000 |});
  checker_outcome := fun _ _ => Checked true "2023-09-18" "2023-12-24" 40;
  browser_outcome := fun _ _ => None;
  isoDate := fun t => string_of_Z t;
  cwd := "/app"
|}.

(** The certificate ran out in 2022; both strategies see it. *)
Definition expired : Env := {|
  Date_now := ticking;
  fetch_outcome := fun _ _ => Responded 200;
  tls_outcome := fun _ _ _ =>
    SecureConnect (Some {| valid_from := Some 1600000000000;
                           valid_to := Some 1650000000000 |});
  checker_outcome := fun _ _ => Checked false "2020-09-13" "2022-04-15" (-579);
  browser_outcome := fun _ _ =>
    Some (JsError.mk "Error" (Some "page.goto: net::ERR_CERT_DATE_INVALID"));
  isoDate := fun t => string_of_Z t;
  cwd := "/app"
|}.

(** The HTTP request fails, the TLS handshake on port 443 works. *)
Definition unreachable : Env := {|
  Date_now := ticking;
  fetch_outcome := fun _ _ => Rejected (JsError.mk "TypeError" (Some "fetch failed"));
  tls_outcome := fun _ _ _ =>
    SecureConnect (Some {| valid_from := Some 1690000000000;
                           valid_to := Some 1710000000000 |});
  checker_outcome := fun _ _ => CheckerRejected;
  browser_outcome := fun _ _ =>
    Some (JsError.mk "Error" (Some "browserType.launch: Executable not found"));
  isoDate := fun t => string_of_Z t;
  cwd := "/app"
|}.

(** The site turns plain HTTP clients away with 403 and refuses the
    certificate probes, but renders in a browser. *)
Definition guarded : Env := {|
  Date_now := ticking;
  fetch_outcome := fun _ _ => Responded 403;
  tls_outcome := fun _ _ _ => SocketError;
  checker_outcome := fun _ _ => CheckerRejected;
  browser_outcome := fun _ _ => None;
  isoDate := fun t => string_of_Z t;
  cwd := "/app"
|}.

(** Every navigation runs into its timeout. *)
Definition stalling : Env := {|
  Date_now := ticking;
  fetch_outcome := fun _ _ => Rejected (JsError.mk "AbortError" (Some "This operation was aborted"));
  tls_outcome := fun _ _ _ => SocketTimeout;
  checker_outcome := fun _ _ => CheckerRejected;
  browser_outcome := fun _ c =>
    match c with
    | Goto _ _ _ => Some (JsError.mk "TimeoutError" (Some "Navigation timeout of 45000 ms exceeded"))
    | _ => None
    end;
  isoDate := fun t => string_of_Z t;
  cwd := "/app"
|}.

(** Pages render, but every race of selector waits throws. *)
Definition restless : Env := {|
  Date_now := ticking;
  fetch_outcome := fun _ _ => Responded 200;
  tls_outcome := fun _ _ _ => SocketError;
  checker_outcome := fun _ _ => CheckerRejected;
  browser_outcome := fun _ c =>
    match c with
    | WaitRace _ _ =>
        Some (JsError.mk "TimeoutError" (Some "page.waitForSelector: Timeout 5000ms exceeded."))
    | _ => None
    end;
  isoDate := fun t => string_of_Z t;
  cwd := "/app"
|}.

(** Pages render, but the browser refuses to close. *)
Definition jammed : Env := {|
  Date_now := ticking;
  fetch_outcome := fun _ _ => Responded 200;
  tls_outcome := fun _ _ _ => SocketError;
  checker_outcome := fun _ _ => CheckerRejected;
  browser_outcome := fun _ c =>
    match c with
    | Close => Some (JsError.mk "Error" (Some "browser.close: Connection closed"))
    | _ => None
    end;
  isoDate := fun t => string_of_Z t;
  cwd := "/app"
|}.

(** Every navigation runs into its timeout, and the error carries the
    message Playwright words for it. *)
Definition timing_out : Env := {|
  Date_now := ticking;
  fetch_outcome := fun _ _ => Responded 200;
  tls_outcome := fun _ _ _ => SocketError;
  checker_outcome := fun _ _ => CheckerRejected;
  browser_outcome := fun _ c =>
    match c with
    | Goto _ _ _ =>
        Some (JsError.mk "TimeoutError" (Some "page.goto: Timeout 45000ms exceeded."))
    | _ => None
    end;
  isoDate := fun t => string_of_Z t;
  cwd := "/app"
|}.

(** The system clock is set back one second at every call. *)
Definition rewinding : Env := {|
  Date_now := fun h => 1700000000000 - 1000 * Z.of_nat (List.length h);
  fetch_outcome := fun _ _ => Responded 200;
  tls_outcome := fun _ _ _ => SocketError;
  checker_outcome := fun _ _ => CheckerRejected;
  browser_outcome := fun _ _ => None;
  isoDate := fun t => string_of_Z t;
  cwd := "/app"
|}.

(* ===================================================================== *)
(** ** Statements of the specification *)
(* ===================================================================== *)

(** The classifier as the specification words it: a case-insensitive
    substring match of the host of the URL against the list. *)
Definition classify_by_host (url : string) : bool :=
  existsb (fun site => includes (toLowerCase (host_of url)) site) specialSites.

Definition first_present {A} (a b : option A) : option A :=
  match a with
  | Some _ => a
  | None => b
  end.

(** The selection rule as the specification words it: the first strategy
    that reports valid wins; when neither does, the record is not valid and
    keeps whatever dates either strategy produced, the native one first. *)
Definition select_as_specified (native checker : SslInfo.t) : SslInfo.t :=
  if SslInfo.ssl_valid native then native
  else if SslInfo.ssl_valid checker then checker
  else
    SslInfo.mk false
      (first_present (SslInfo.ssl_expire_date native) (SslInfo.ssl_expire_date checker))
      (first_present (SslInfo.ssl_expires native) (SslInfo.ssl_expires checker))
      (first_present (SslInfo.ssl_days_remaining native) (SslInfo.ssl_days_remaining checker))
      (first_present (SslInfo.ssl_renew_date native) (SslInfo.ssl_renew_date checker))
      (first_present (SslInfo.ssl_issued_date native) (SslInfo.ssl_issued_date checker)).

(** [p] occurs in [s]. *)
Definition piece_of (p s : string) : Prop := exists a b, s = a ++ p ++ b.

(** The record both branches of [checkWebsiteStatus] return. *)
Definition probe_record (status : Status) (ssl_valid : bool) (sslInfo : SslInfo.t)
  (response_time : Z) (error_message : option string) : StatusCheck.t :=
  StatusCheck.mk status ssl_valid
    (SslInfo.ssl_renew_date sslInfo)
    (js_or (SslInfo.ssl_issued_date sslInfo) (SslInfo.ssl_renew_date sslInfo))
    (SslInfo.ssl_expire_date sslInfo)
    (js_or (SslInfo.ssl_expires sslInfo) (SslInfo.ssl_expire_date sslInfo))
    (SslInfo.ssl_days_remaining sslInfo)
    (Some response_time) error_message.

(** Closing a browser never fails. *)
Definition closes_resolve (env : Env) : Prop :=
  forall h, browser_outcome env h Close = None.

(** Browser launches recorded in a trace. *)
Fixpoint launches (h : Trace) : nat :=
  match h with
  | [] => 0
  | Launch _ :: t => S (launches t)
  | _ :: t => launches t
  end.

(** The site a result is about. *)
Definition site_of (r : ScreenshotResult.t) : Z * string :=
  (ScreenshotResult.id r, ScreenshotResult.url r).

(* ===================================================================== *)
(** ** Footprints *)
(* ===================================================================== *)

(** [h'] is [h] with more calls on top, each of them satisfying [P]. *)
Definition extends_with (P : Call -> Prop) (h h' : Trace) : Prop :=
  exists new, h' = (new ++ h)%list /\ Forall P new.

(** Every call a browser computation makes satisfies [P]. *)
Definition footprint {A} (P : Call -> Prop) (m : B A) : Prop :=
  forall h, extends_with P h (snd (m h)).

(** The navigation profile of a URL: timeout and [waitUntil]. *)
Definition profile_timeout (url : string) : Z :=
  if needsSpecialHandling url then 60000 else 45000.

Definition profile_waitUntil (url : string) : string :=
  if needsSpecialHandling url then "domcontentloaded" else "networkidle".

(** The calls on the page of a capture of [url] for site [id]. *)
Definition page_call (env : Env) (url : string) (id : Z) (c : Call) : Prop :=
  match c with
  | NewPage => True
  | SetViewportSize width height => width = 1920 /\ height = 1080
  | SetDefaultTimeout timeout => timeout = profile_timeout url
  | SetDefaultNavigationTimeout timeout => timeout = profile_timeout url
  | Goto u waitUntil timeout =>
      u = url /\ waitUntil = profile_waitUntil url /\ timeout = profile_timeout url
  | WaitForTimeout ms => ms = if needsSpecialHandling url then 5000 else 3000
  | WaitRace selectors ms =>
      if needsSpecialHandling url
      then selectors = ["body"; "[data-testid]"; ".nav-logo"] /\ ms = 10000
      else selectors = ["body"] /\ ms = 5000
  | PageScreenshot path =>
      exists t, path = screenshotsDir env ++ "/" ++ string_of_Z id ++ "_"
                       ++ string_of_Z t ++ ".png"
  | _ => False
  end.

(** The calls of a whole capture: those on the page, the launch, the
    closing of the browser and the pause before a retry. *)
Definition capture_call (env : Env) (url : string) (id : Z) (c : Call) : Prop :=
  match c with
  | Launch args => args = launch_args (needsSpecialHandling url)
  | Close => True
  | Sleep ms => ms = 2000
  | _ => page_call env url id c
  end.

(** The calls of a probe of [url]. *)
Definition probe_call (url : string) (c : Call) : Prop :=
  match c with
  | Fetch u => u = url
  | TlsConnect port hostname =>
      exists urlObj,
        new_URL url = Some urlObj
        /\ hostname = URL.hostname urlObj
        /\ port = (if truthy_string (URL.port urlObj)
                   then parseInt (URL.port urlObj) else 443)
  | SslChecker host => host = checker_host url
  | _ => False
  end.

(** The URLs requested in a trace, the most recent one first. *)
Fixpoint fetched (h : Trace) : list string :=
  match h with
  | [] => []
  | Fetch u :: t => u :: fetched t
  | _ :: t => fetched t
  end.




(** A call of the capturer. *)
Definition browser_call (c : Call) : Prop :=
  match c with
  | Fetch _ | TlsConnect _ _ | SslChecker _ => False
  | _ => True
  end.

(** Every environment in which only the race of the settle waits throws. *)
Definition only_races_throw (env : Env) : Prop :=
  forall h c, (forall selectors ms, c <> WaitRace selectors ms) ->
              browser_outcome env h c = None.

(** A browser computation that never throws. *)
Definition succeeds {A} (m : B A) : Prop :=
  forall h, exists a h', m h = (inr a, h').

(** The trace holds a call of [page.screenshot] for the file [path], and
    that call resolved. *)
Definition written (env : Env) (h : Trace) (path : string) : Prop :=
  exists newer older,
    h = (newer ++ PageScreenshot path :: older)%list
    /\ browser_outcome env older (PageScreenshot path) = None.

(** Since the trace was [h], a call of [page.screenshot] was made for the
    file behind [path]: the call resolved, and the file is named after [id]
    and the reading of the clock at the call. *)
Definition shot_in (env : Env) (id : Z) (h h' : Trace) (path : string) : Prop :=
  exists newer earlier,
    let older := (earlier ++ h)%list in
    let fileName := string_of_Z id ++ "_" ++ string_of_Z (Date_now env older) ++ ".png" in
    h' = (newer ++ PageScreenshot (screenshotsDir env ++ "/" ++ fileName) :: older)%list
    /\ browser_outcome env older (PageScreenshot (screenshotsDir env ++ "/" ++ fileName)) = None
    /\ path = "/screenshots/" ++ fileName.

(** A browser computation that returns a path only for a screenshot it took. *)
Definition takes_shot (env : Env) (id : Z) (m : B string) : Prop :=
  forall h path h', m h = (inr path, h') -> shot_in env id h h' path.

(** Since the trace was [h], a call of [browser.close()] rejected with
    [error]. *)
Definition close_failed (env : Env) (h h' : Trace) (error : JsError.t) : Prop :=
  exists newer earlier,
    h' = (newer ++ Close :: earlier ++ h)%list
    /\ browser_outcome env (earlier ++ h)%list Close = Some error.

(** A certificate record is either the bare [{ ssl_valid: false }] or a
    valid one that carries every field, the two expiry fields equal and the
    two issue fields equal. *)
Definition whole_record (info : SslInfo.t) : Prop :=
  info = SslInfo.invalid
  \/ exists expire issued days,
       info = SslInfo.mk true (Some expire) (Some expire) (Some days)
                         (Some issued) (Some issued).

(* ===================================================================== *)
(** ** The hydration fix: components/HydrationFix.tsx *)
(* ===================================================================== *)

Module HydrationFix.

(** The attributes of [document.body], in document order, each a name and
    a value.  Names are unique in the attribute list of an element, so
    removing by name is filtering by name. *)
Definition Attributes := list (string * string).

Definition named (attr : string) (a : string * string) : bool :=
  (fst a =? attr)%string.

(** [body.hasAttribute(attr)] *)
Definition hasAttribute (body : Attributes) (attr : string) : bool :=
  existsb (named attr) body.

(** [body.removeAttribute(attr)] *)
Definition removeAttribute (body : Attributes) (attr : string) : Attributes :=
  filter (fun a => negb (named attr a)) body.

(** [body.setAttribute(attr, value)]: the value is replaced in place, or
    the attribute is added at the end. *)
Fixpoint setAttribute (body : Attributes) (attr value : string) : Attributes :=
  match body with
  | [] => [(attr, value)]
  | a :: rest =>
      if named attr a then (attr, value) :: rest
      else a :: setAttribute rest attr value
  end.

Definition extensionAttributes : list string :=
  [ "cz-shortcut-listen"; "data-new-gr-c-s-check-loaded"; "data-gr-ext-installed";
    "spellcheck"; "data-lt-installed"; "data-darkreader-mode";
    "data-darkreader-scheme" ].

(** The [attributeFilter] of the observer. *)
Definition attributeFilter : list string :=
  [ "cz-shortcut-listen"; "data-new-gr-c-s-check-loaded"; "data-gr-ext-installed";
    "data-lt-installed"; "data-darkreader-mode"; "data-darkreader-scheme" ].

(** The [forEach] of [removeExtensionAttributes], on a body that is there. *)
Definition remove_each (body : Attributes) : Attributes :=
  fold_left
    (fun body attr => if hasAttribute body attr then removeAttribute body attr else body)
    extensionAttributes body.

(** [removeExtensionAttributes]: without a body nothing happens. *)
Definition removeExtensionAttributes (document_body : option Attributes)
  : option Attributes :=
  match document_body with
  | Some body => Some (remove_each body)
  | None => None
  end.

(** The page while the component is mounted in a document that has a body:
    the attributes of the body, whether the 100 ms timer is still pending and
    whether the observer is connected. *)
Record Page := { body : Attributes; timer : bool; observing : bool }.

(** What can happen to the page: the effect runs, the timer fires, some
    other script sets or removes an attribute of the body, the cleanup of
    the effect runs. *)
Inductive Event : Type :=
| Mount
| TimerFires
| SetAttribute (attr value : string)
| RemoveAttribute (attr : string)
| Unmount.

Definition listed (names : list string) (attr : string) : bool :=
  existsb (String.eqb attr) names.

(** The callback of the observer: a connected observer is told of a change
    of an attribute of its filter and runs the removal.  The records of the
    removals the component makes itself lead to further runs of the callback,
    which find nothing left to remove. *)
Definition notify (page : Page) (attr : string) (changed : Attributes) : Attributes :=
  if observing page && listed attributeFilter attr
  then remove_each changed
  else changed.

Definition step (page : Page) (e : Event) : Page :=
  match e with
  | Mount =>
      {| body := remove_each (body page); timer := true; observing := true |}
  | TimerFires =>
      if timer page
      then {| body := remove_each (body page);
              timer := false; observing := observing page |}
      else page
  | SetAttribute attr value =>
      {| body := notify page attr (setAttribute (body page) attr value);
         timer := timer page; observing := observing page |}
  | RemoveAttribute attr =>
      if hasAttribute (body page) attr
      then {| body := notify page attr (removeAttribute (body page) attr);
              timer := timer page; observing := observing page |}
      else page
  | Unmount =>
      {| body := body page; timer := false; observing := false |}
  end.

(** The page after a sequence of events. *)
Definition run (page : Page) (events : list Event) : Page :=
  fold_left step events page.

(** No attribute with one of [names] is on the body. *)
Definition free_of (names : list string) (attrs : Attributes) : Prop :=
  forall attr, In attr names -> hasAttribute attrs attr = false.

End HydrationFix.

(* ===================================================================== *)
(** * Properties *)
(* ===================================================================== *)

(** ** Strings *)

Section StringFacts.

Lemma startsWith_spec (s p : string) :
  startsWith s p = true <-> exists r, s = p ++ r.
Proof.
  unfold startsWith. revert s.
  induction p as [|c p IH]; intros s; simpl.
  - destruct s; split; eauto.
  - destruct s as [|d s]; simpl.
    + split; [discriminate | intros [r Hr]; discriminate].
    + destruct (Ascii.ascii_dec c d) as [->|Hcd].
      * rewrite IH. split; intros [r Hr]; exists r; congruence.
      * split; [discriminate | intros [r Hr]; congruence].
Qed.

Lemma includes_spec (s needle : string) :
  includes s needle = true <-> exists a b, s = a ++ needle ++ b.
Proof.
  induction s as [|c s IH]; cbn [includes].
  - rewrite orb_false_r, startsWith_spec. split.
    + intros [r Hr]. exists "", r. exact Hr.
    + intros [a [b Hab]]. destruct a; [eauto | discriminate].
  - rewrite orb_true_iff, startsWith_spec, IH. split.
    + intros [[r Hr] | [a [b Hab]]].
      * exists "", r. exact Hr.
      * exists (String c a), b. simpl. now rewrite Hab.
    + intros [a [b Hab]]. destruct a as [|d a]; simpl in Hab.
      * left. eauto.
      * right. exists a, b. congruence.
Qed.

Lemma append_assoc (a b c : string) : (a ++ b) ++ c = a ++ (b ++ c).
Proof. induction a; simpl; congruence. Qed.

Lemma append_empty_r (a : string) : a ++ "" = a.
Proof. induction a; simpl; congruence. Qed.

Lemma toLowerCase_append (a b : string) :
  toLowerCase (a ++ b) = toLowerCase a ++ toLowerCase b.
Proof. induction a; simpl; congruence. Qed.

Lemma lower_ascii_idem (c : ascii) : lower_ascii (lower_ascii c) = lower_ascii c.
Proof. destruct c as [[] [] [] [] [] [] [] []]; reflexivity. Qed.

Lemma toLowerCase_idem (s : string) : toLowerCase (toLowerCase s) = toLowerCase s.
Proof. induction s; simpl; [|rewrite lower_ascii_idem]; congruence. Qed.

Lemma piece_refl (s : string) : piece_of s s.
Proof. exists "", "". simpl. now rewrite append_empty_r. Qed.

Lemma piece_trans (p q s : string) : piece_of p q -> piece_of q s -> piece_of p s.
Proof.
  intros [a [b ->]] [a' [b' ->]]. exists (a' ++ a), (b ++ b').
  now rewrite !append_assoc.
Qed.

Lemma piece_prefix (p r : string) : piece_of p (p ++ r).
Proof. exists "", r. reflexivity. Qed.

Lemma piece_suffix (a p : string) : piece_of p (a ++ p).
Proof. exists a, "". now rewrite append_empty_r. Qed.

Lemma piece_lower (p s : string) :
  piece_of p s -> piece_of (toLowerCase p) (toLowerCase s).
Proof.
  intros [a [b ->]]. exists (toLowerCase a), (toLowerCase b).
  now rewrite !toLowerCase_append.
Qed.

Lemma substring0_length (n : nat) (s : string) :
  (String.length (substring0 n s) <= n)%nat.
Proof.
  unfold substring0. revert s.
  induction n as [|n IH]; intros [|c s]; simpl; try lia.
  specialize (IH s). lia.
Qed.

Lemma truthy_string_nonempty (s : string) : truthy_string s = true <-> s <> "".
Proof.
  unfold truthy_string. rewrite negb_true_iff. split.
  - intros H ->. discriminate.
  - intros H. destruct s; [contradiction | reflexivity].
Qed.

End StringFacts.

(** ** URL pieces *)

Section UrlFacts.

Lemma drop_suffix (n : nat) (s : string) : exists a, s = a ++ drop n s.
Proof.
  revert s. induction n as [|n IH]; intros s.
  - exists "". reflexivity.
  - destruct s as [|c s]; simpl.
    + exists "". reflexivity.
    + destruct (IH s) as [a Ha]. exists (String c a). simpl. congruence.
Qed.

Lemma after_scheme_suffix (s r : string) :
  after_scheme s = Some r -> exists a, s = a ++ r.
Proof.
  induction s as [|c s IH]; cbn [after_scheme].
  - cbn. discriminate.
  - destruct (startsWith (String c s) "://").
    + intros [= <-]. apply (drop_suffix 3 (String c s)).
    + intros H. destruct (IH H) as [a ->]. exists (String c a). reflexivity.
Qed.

Lemma take_authority_prefix (special : bool) (s : string) :
  exists r, s = take_authority special s ++ r.
Proof.
  induction s as [|c s [r IH]]; simpl.
  - exists "". reflexivity.
  - destruct (is_delim special c).
    + exists (String c s). reflexivity.
    + exists r. simpl. congruence.
Qed.

Lemma skip_slashes_suffix (special : bool) (s : string) :
  exists a, s = a ++ skip_slashes special s.
Proof.
  induction s as [|c s [a IH]]; cbn [skip_slashes].
  - exists "". reflexivity.
  - destruct (special && is_slash special c).
    + exists (String c a). cbn. congruence.
    + exists "". reflexivity.
Qed.

Lemma after_last_at_suffix (s r : string) :
  after_last_at s = Some r -> exists a, s = a ++ r.
Proof.
  revert r. induction s as [|c s IH]; simpl; intros r.
  - discriminate.
  - destruct (after_last_at s) as [r'|].
    + intros [= <-]. destruct (IH r' eq_refl) as [a ->].
      exists (String c a). reflexivity.
    + destruct (c =? "@")%char; [|discriminate].
      intros [= <-]. exists (String c ""). reflexivity.
Qed.

Lemma split_port_prefix (s : string) : exists r, s = fst (split_port s) ++ r.
Proof.
  induction s as [|c s [r IH]]; simpl.
  - exists "". reflexivity.
  - destruct (split_port s) as [h [p|]]; simpl in *.
    + exists r. congruence.
    + destruct ((c =? ":")%char && all_digits s)%bool; simpl.
      * exists (String c s). reflexivity.
      * exists r. congruence.
Qed.

(** The host of a URL that parses is a piece of the lower-cased URL. *)
Lemma hostname_piece (url : string) (u : URL.t) :
  new_URL url = Some u -> piece_of (URL.hostname u) (toLowerCase url).
Proof.
  unfold new_URL. destruct (after_scheme url) as [rest|] eqn:Hs; [|discriminate].
  destruct (after_scheme_suffix _ _ Hs) as [a Ha].
  set (special := match default_port url with Some _ => true | None => false end).
  destruct (skip_slashes_suffix special rest) as [s Hskip].
  destruct (take_authority_prefix special (skip_slashes special rest)) as [b Hb].
  set (authority := take_authority special (skip_slashes special rest)) in *.
  set (hostport := match after_last_at authority with Some r => r | None => authority end).
  assert (Hhp : piece_of hostport authority).
  { subst hostport. destruct (after_last_at authority) as [r|] eqn:Hat.
    - destruct (after_last_at_suffix _ _ Hat) as [x ->]. apply piece_suffix.
    - apply piece_refl. }
  destruct (split_port_prefix hostport) as [c Hc].
  destruct (split_port hostport) as [host p]; simpl in Hc.
  assert (Hhost : piece_of (toLowerCase host) (toLowerCase url)).
  { apply piece_lower.
    apply piece_trans with hostport; [rewrite Hc; apply piece_prefix|].
    apply piece_trans with authority; [exact Hhp|].
    apply piece_trans with (skip_slashes special rest); [rewrite Hb; apply piece_prefix|].
    apply piece_trans with rest; [rewrite Hskip at 2; apply piece_suffix|].
    rewrite Ha. apply piece_suffix. }
  destruct (host =? "")%string; [discriminate|].
  destruct (has_forbidden host); [discriminate|].
  destruct p as [digits|].
  - destruct (digits =? "")%string; [intros [= <-]; exact Hhost|].
    destruct (65535 <? parseInt digits); [discriminate|].
    destruct (match default_port url with Some d => parseInt digits =? d | None => false end);
      intros [= <-]; exact Hhost.
  - intros [= <-]. exact Hhost.
Qed.

End UrlFacts.

(** ** Site classifier *)

Section Classifier.

Lemma needsSpecialHandling_iff (url : string) :
  needsSpecialHandling url = true <->
  exists site, In site specialSites /\ piece_of site (toLowerCase url).
Proof.
  unfold needsSpecialHandling. rewrite existsb_exists.
  split; intros [site [Hin H]]; exists site; split; trivial;
    now apply includes_spec.
Qed.

Lemma host_match_is_url_match (url : string) :
  classify_by_host url = true -> needsSpecialHandling url = true.
Proof.
  unfold classify_by_host, host_of.
  destruct (new_URL url) as [u|] eqn:Hu; [|vm_compute; discriminate].
  rewrite existsb_exists. intros [site [Hin H]].
  apply needsSpecialHandling_iff. exists site. split; [exact Hin|].
  apply includes_spec in H.
  apply piece_trans with (toLowerCase (URL.hostname u)); [exact H|].
  rewrite <- (toLowerCase_idem url). apply piece_lower.
  now apply hostname_piece.
Qed.

End Classifier.

(** C8, as stated, fails: the match runs over the whole URL string, so a
    listed domain in the path classifies a URL whose host holds none, and two
    URLs with the same host can be classified differently. *)
Lemma needsSpecialHandling_not_host_only :
  host_of "https://example.com/amazon.com" = "example.com"
  /\ needsSpecialHandling "https://example.com/amazon.com" = true
  /\ classify_by_host "https://example.com/amazon.com" = false
  /\ host_of "https://example.com/" = host_of "https://example.com/amazon.com"
  /\ needsSpecialHandling "https://example.com/" = false
  /\ ~ (forall url, needsSpecialHandling url = classify_by_host url).
Proof.
  repeat split; try reflexivity.
  intros H. specialize (H "https://example.com/amazon.com").
  vm_compute in H. discriminate.
Qed.

(** C8, amended: the classifier is a pure, case-insensitive substring match
    of the whole URL string against the fixed list.  It answers [true]
    exactly when the lower-cased URL contains a listed domain, and URLs that
    are equal up to letter case are classified alike.  A host that is
    written out in the URL and contains a listed domain is therefore always
    classified [true], and so is any URL whose path or query contains one. *)
Theorem needsSpecialHandling_whole_url (url : string) :
  (needsSpecialHandling url = true <->
   exists site before after,
     In site specialSites /\ toLowerCase url = before ++ site ++ after)
  /\ (forall url', toLowerCase url' = toLowerCase url ->
                   needsSpecialHandling url' = needsSpecialHandling url)
  /\ (classify_by_host url = true -> needsSpecialHandling url = true).
Proof.
  split; [|split].
  - rewrite needsSpecialHandling_iff. unfold piece_of.
    split; [intros [site [Hin [a [b H]]]] | intros [site [a [b [Hin H]]]]]; eauto 6.
  - intros url' H. unfold needsSpecialHandling. now rewrite H.
  - apply host_match_is_url_match.
Qed.

(** ** Certificate strategies *)

(** Unfolds the plumbing of the two monads. *)
Ltac run :=
  cbv [bind ret now tell fetch tls_connect sslChecker bindB retB lift swallow].

Section Certificates.

Variable env : Env.

Lemma getSSLCertificateInfo_not_https (url : string) (h : Trace) :
  startsWith url "https://" = false ->
  getSSLCertificateInfo env url h = (SslInfo.invalid, h).
Proof. intros H. unfold getSSLCertificateInfo. now rewrite H. Qed.

Lemma checkSSLWithChecker_not_https (url : string) (h : Trace) :
  startsWith url "https://" = false ->
  checkSSLWithChecker env url h = (SslInfo.invalid, h).
Proof. intros H. unfold checkSSLWithChecker. now rewrite H. Qed.

Lemma selectSslInfo_not_https (url : string) (h : Trace) :
  startsWith url "https://" = false ->
  selectSslInfo env url h = (SslInfo.invalid, h).
Proof. intros H. unfold selectSslInfo. now rewrite H. Qed.

(** The native strategy makes at most one call, a TLS connection. *)
Lemma getSSLCertificateInfo_trace (url : string) (h : Trace) :
  snd (getSSLCertificateInfo env url h) = h
  \/ exists port hostname,
       snd (getSSLCertificateInfo env url h) = TlsConnect port hostname :: h.
Proof.
  unfold getSSLCertificateInfo.
  destruct (startsWith url "https://"); simpl; [|now left].
  destruct (new_URL url) as [u|]; [|now left].
  right. run. eexists _, _.
  destruct (tls_outcome env h _ _); reflexivity.
Qed.

(** The handshake path of the native strategy on an https URL that parses. *)
Lemma getSSLCertificateInfo_handshake (url : string) (h : Trace) (urlObj : URL.t)
  (cert : option PeerCertificate) :
  startsWith url "https://" = true ->
  new_URL url = Some urlObj ->
  let port := if truthy_string (URL.port urlObj)
              then parseInt (URL.port urlObj) else 443 in
  let h' := TlsConnect port (URL.hostname urlObj) :: h in
  tls_outcome env h port (URL.hostname urlObj) = SecureConnect cert ->
  getSSLCertificateInfo env url h = (on_secure_connect env (Date_now env h') cert, h').
Proof.
  intros Hs Hu port h' Ht. unfold getSSLCertificateInfo.
  subst port h'. rewrite Hs, Hu. cbv [negb]. run. now rewrite Ht.
Qed.

(** On an https URL that parses, the native strategy opens the connection. *)
Lemma getSSLCertificateInfo_connects (url : string) (h : Trace) (urlObj : URL.t) :
  startsWith url "https://" = true ->
  new_URL url = Some urlObj ->
  snd (getSSLCertificateInfo env url h)
  = TlsConnect (if truthy_string (URL.port urlObj)
                then parseInt (URL.port urlObj) else 443)
               (URL.hostname urlObj) :: h.
Proof.
  intros Hs Hu. unfold getSSLCertificateInfo. rewrite Hs, Hu. cbv [negb]. run.
  destruct (tls_outcome env h _ _); reflexivity.
Qed.

(** The checker strategy makes exactly one call on an https URL. *)
Lemma checkSSLWithChecker_trace (url : string) (h : Trace) :
  startsWith url "https://" = true ->
  snd (checkSSLWithChecker env url h) = SslChecker (checker_host url) :: h.
Proof.
  intros Hs. unfold checkSSLWithChecker. rewrite Hs. cbv [negb]. run.
  destruct (checker_outcome env h (checker_host url)); reflexivity.
Qed.

(** The selection block, with its two calls spelled out. *)
Lemma selectSslInfo_unfold (url : string) (h : Trace) :
  selectSslInfo env url h =
  let (native, h1) := getSSLCertificateInfo env url h in
  if SslInfo.ssl_valid native then (native, h1)
  else
    let (checker, h2) := checkSSLWithChecker env url h1 in
    if SslInfo.ssl_valid checker then (checker, h2) else (SslInfo.invalid, h2).
Proof.
  unfold selectSslInfo. destruct (startsWith url "https://") eqn:Hs.
  - unfold bind, ret. destruct (getSSLCertificateInfo env url h) as [native h1].
    destruct (SslInfo.ssl_valid native); [reflexivity|].
    destruct (checkSSLWithChecker env url h1) as [checker h2].
    destruct (SslInfo.ssl_valid checker); reflexivity.
  - rewrite (getSSLCertificateInfo_not_https url h Hs). cbn.
    rewrite (checkSSLWithChecker_not_https url h Hs). reflexivity.
Qed.

(** The selection block always goes through the native strategy first. *)
Lemma selectSslInfo_consults_native (url : string) (h : Trace) (urlObj : URL.t) :
  startsWith url "https://" = true ->
  new_URL url = Some urlObj ->
  In (TlsConnect (if truthy_string (URL.port urlObj)
                  then parseInt (URL.port urlObj) else 443)
                 (URL.hostname urlObj))
     (snd (selectSslInfo env url h)).
Proof.
  intros Hs Hu. rewrite selectSslInfo_unfold.
  pose proof (getSSLCertificateInfo_connects url h urlObj Hs Hu) as Hn.
  destruct (getSSLCertificateInfo env url h) as [native h1]. cbn [snd] in Hn.
  destruct (SslInfo.ssl_valid native); cbn [snd].
  - rewrite Hn. now left.
  - pose proof (checkSSLWithChecker_trace url h1 Hs) as Hc.
    destruct (checkSSLWithChecker env url h1) as [checker h2]. cbn [snd] in Hc.
    destruct (SslInfo.ssl_valid checker); cbn [snd]; rewrite Hc, Hn; right; now left.
Qed.

End Certificates.

(** C6: on a completed handshake with a certificate that carries both dates,
    the native strategy reports [ssl_valid] exactly when the time of the
    callback lies in the closed window from [valid_from] to [valid_to] (both
    ends count as valid), and [ssl_days_remaining] is the floor of the time
    left divided by one day.  So an expiry in the past gives
    [ssl_valid = false], and an expiry ten days ahead gives ten days. *)
Theorem getSSLCertificateInfo_window (env : Env) (url : string) (h : Trace)
  (urlObj : URL.t) (validFrom validTo : Z) :
  startsWith url "https://" = true ->
  new_URL url = Some urlObj ->
  let port := if truthy_string (URL.port urlObj)
              then parseInt (URL.port urlObj) else 443 in
  tls_outcome env h port (URL.hostname urlObj)
  = SecureConnect (Some {| valid_from := Some validFrom; valid_to := Some validTo |}) ->
  let now := Date_now env (TlsConnect port (URL.hostname urlObj) :: h) in
  let info := fst (getSSLCertificateInfo env url h) in
  (SslInfo.ssl_valid info = true <-> validFrom <= now <= validTo)
  /\ (exists days, SslInfo.ssl_days_remaining info = Some days
                   /\ days = (validTo - now) / ms_per_day
                   /\ days * ms_per_day <= validTo - now < (days + 1) * ms_per_day)
  /\ (validTo < now -> SslInfo.ssl_valid info = false)
  /\ (validTo = now + 10 * ms_per_day -> SslInfo.ssl_days_remaining info = Some 10).
Proof.
  intros Hs Hu port Ht now info.
  assert (Hinfo : info = on_secure_connect env now
             (Some {| valid_from := Some validFrom; valid_to := Some validTo |})).
  { subst info. now rewrite (getSSLCertificateInfo_handshake env url h urlObj _ Hs Hu Ht). }
  rewrite Hinfo. cbn [on_secure_connect SslInfo.ssl_valid SslInfo.ssl_days_remaining].
  assert (Hday : 0 < ms_per_day) by (unfold ms_per_day; lia).
  repeat split.
  - apply andb_true_iff in H. lia.
  - apply andb_true_iff in H. lia.
  - intros [H1 H2]. apply andb_true_iff. lia.
  - exists ((validTo - now) / ms_per_day). repeat split.
    + pose proof (Z.mul_div_le (validTo - now) ms_per_day Hday). lia.
    + pose proof (Z.mod_pos_bound (validTo - now) ms_per_day Hday).
      pose proof (Z.div_mod (validTo - now) ms_per_day). lia.
  - intros Hlt. apply andb_false_iff. right. lia.
  - intros ->. f_equal.
    replace (now + 10 * ms_per_day - now) with (10 * ms_per_day) by lia.
    apply Z.div_mul. lia.
Qed.

Lemma getSSLCertificateInfo_window_witness :
  startsWith "https://example.com" "https://" = true
  /\ new_URL "https://example.com" = Some (URL.mk "example.com" "")
  /\ tls_outcome healthy [] 443 "example.com"
     = SecureConnect (Some {| valid_from := Some 1695000000000;
                              valid_to := Some 1703459600000 |})
  /\ SslInfo.ssl_valid (fst (getSSLCertificateInfo healthy "https://example.com" [])) = true
  /\ SslInfo.ssl_days_remaining (fst (getSSLCertificateInfo healthy "https://example.com" []))
     = Some 40.
Proof.
  pose proof (getSSLCertificateInfo_window healthy "https://example.com" []
                (URL.mk "example.com" "") 1695000000000 1703459600000
                eq_refl eq_refl eq_refl) as [Hvalid [[days [Hdays [Heq _]]] _]].
  split; [reflexivity|]. split; [reflexivity|]. split; [reflexivity|]. split.
  - apply Hvalid. vm_compute. split; discriminate.
  - rewrite Hdays, Heq. reflexivity.
Defined.

(** C5, as stated, fails in its last part: when neither strategy reports a
    valid certificate the dates both of them produced are dropped, and the
    record is the bare [{ ssl_valid: false }]. *)
Lemma selectSslInfo_drops_dates :
  SslInfo.ssl_expire_date (fst (getSSLCertificateInfo expired "https://expired.example" []))
  = Some "1650000000000"
  /\ SslInfo.ssl_expire_date
       (fst (checkSSLWithChecker expired "https://expired.example"
               (snd (getSSLCertificateInfo expired "https://expired.example" []))))
     = Some "2022-04-15"
  /\ fst (selectSslInfo expired "https://expired.example" []) = SslInfo.invalid
  /\ fst (selectSslInfo expired "https://expired.example" [])
     <> select_as_specified
          (fst (getSSLCertificateInfo expired "https://expired.example" []))
          (fst (checkSSLWithChecker expired "https://expired.example"
                  (snd (getSSLCertificateInfo expired "https://expired.example" [])))).
Proof.
  split; [reflexivity|]. split; [reflexivity|]. split; [reflexivity|].
  vm_compute. discriminate.
Qed.

(** C5, amended: the native TLS strategy is consulted first and the checker
    only when the native one did not report a valid certificate (otherwise no
    checker call is made); the first strategy to report valid supplies the
    whole record; when neither does, the record is [{ ssl_valid: false }]
    with no date and no day count. *)
Theorem selectSslInfo_fallback (env : Env) (url : string) (h : Trace) :
  let native := fst (getSSLCertificateInfo env url h) in
  let h1 := snd (getSSLCertificateInfo env url h) in
  let checker := fst (checkSSLWithChecker env url h1) in
  let h2 := snd (checkSSLWithChecker env url h1) in
  (SslInfo.ssl_valid native = true ->
     selectSslInfo env url h = (native, h1)
     /\ forall host, In (SslChecker host) h1 -> In (SslChecker host) h)
  /\ (SslInfo.ssl_valid native = false ->
        SslInfo.ssl_valid checker = true ->
        selectSslInfo env url h = (checker, h2))
  /\ (SslInfo.ssl_valid native = false ->
        SslInfo.ssl_valid checker = false ->
        selectSslInfo env url h = (SslInfo.invalid, h2))
  /\ (startsWith url "https://" = true ->
        SslInfo.ssl_valid native = false ->
        h2 = SslChecker (checker_host url) :: h1).
Proof.
  intros native h1 checker h2. subst native h1 checker h2.
  rewrite selectSslInfo_unfold.
  pose proof (getSSLCertificateInfo_trace env url h) as Ht.
  destruct (getSSLCertificateInfo env url h) as [native h1]. cbn [fst snd] in *.
  pose proof (checkSSLWithChecker_trace env url h1) as Hc.
  destruct (checkSSLWithChecker env url h1) as [checker h2]. cbn [fst snd] in *.
  split; [|split; [|split]].
  - intros ->. split; [reflexivity|]. intros host Hin.
    destruct Ht as [-> | [port [hostname ->]]]; [exact Hin|].
    destruct Hin as [Hin|Hin]; [discriminate | exact Hin].
  - intros -> ->. reflexivity.
  - intros -> ->. reflexivity.
  - intros Hs _. exact (Hc Hs).
Qed.

Lemma selectSslInfo_fallback_witness :
  SslInfo.ssl_valid (fst (getSSLCertificateInfo unreachable "https://example.com" [])) = true
  /\ selectSslInfo unreachable "https://example.com" []
     = (fst (getSSLCertificateInfo unreachable "https://example.com" []),
        [TlsConnect 443 "example.com"]).
Proof.
  split; [reflexivity|].
  exact (proj1 (proj1 (selectSslInfo_fallback unreachable "https://example.com" [])
                  eq_refl)).
Defined.

(** ** Liveness prober *)

Section Prober.

Variable env : Env.

Lemma checkWebsiteStatus_responded (url : string) (h : Trace) (code : Z) :
  fetch_outcome env h url = Responded code ->
  checkWebsiteStatus env url h =
  (probe_record (if ok code then Up else Down)
     (startsWith url "https://"
      && (ok code || SslInfo.ssl_valid (fst (selectSslInfo env url (Fetch url :: h)))))
     (fst (selectSslInfo env url (Fetch url :: h)))
     (Date_now env (Fetch url :: h) - Date_now env h) None,
   snd (selectSslInfo env url (Fetch url :: h))).
Proof.
  intros Hf. unfold checkWebsiteStatus. run. rewrite Hf.
  destruct (selectSslInfo env url (Fetch url :: h)) as [sslInfo h2]. reflexivity.
Qed.

Lemma checkWebsiteStatus_rejected (url : string) (h : Trace) (error : JsError.t) :
  fetch_outcome env h url = Rejected error ->
  checkWebsiteStatus env url h =
  (probe_record Error
     (SslInfo.ssl_valid (fst (selectSslInfo env url (Fetch url :: h))))
     (fst (selectSslInfo env url (Fetch url :: h)))
     (Date_now env (Fetch url :: h) - Date_now env h)
     (Some (probe_error_message error)),
   snd (selectSslInfo env url (Fetch url :: h))).
Proof.
  intros Hf. unfold checkWebsiteStatus. run. rewrite Hf.
  destruct (selectSslInfo env url (Fetch url :: h)) as [sslInfo h2]. reflexivity.
Qed.

(** The response time is there on both branches: the clock difference
    around the request. *)
Lemma checkWebsiteStatus_response_time (url : string) (h : Trace) :
  StatusCheck.response_time (fst (checkWebsiteStatus env url h))
  = Some (Date_now env (Fetch url :: h) - Date_now env h).
Proof.
  destruct (fetch_outcome env h url) as [code|error] eqn:Hf.
  - now rewrite (checkWebsiteStatus_responded url h code Hf).
  - now rewrite (checkWebsiteStatus_rejected url h error Hf).
Qed.

(** Only a rejected request leaves a message. *)
Lemma checkWebsiteStatus_error_message (url : string) (h : Trace) :
  StatusCheck.error_message (fst (checkWebsiteStatus env url h))
  = match fetch_outcome env h url with
    | Responded _ => None
    | Rejected error => Some (probe_error_message error)
    end.
Proof.
  destruct (fetch_outcome env h url) as [code|error] eqn:Hf.
  - now rewrite (checkWebsiteStatus_responded url h code Hf).
  - now rewrite (checkWebsiteStatus_rejected url h error Hf).
Qed.

Lemma checkWebsiteStatus_not_https (url : string) (h : Trace) :
  startsWith url "https://" = false ->
  StatusCheck.ssl_valid (fst (checkWebsiteStatus env url h)) = false
  /\ snd (checkWebsiteStatus env url h) = Fetch url :: h.
Proof.
  intros Hs. destruct (fetch_outcome env h url) as [code|error] eqn:Hf.
  - rewrite (checkWebsiteStatus_responded url h code Hf).
    rewrite (selectSslInfo_not_https env url _ Hs), Hs. split; reflexivity.
  - rewrite (checkWebsiteStatus_rejected url h error Hf).
    rewrite (selectSslInfo_not_https env url _ Hs). split; reflexivity.
Qed.

Lemma probe_error_message_length (error : JsError.t) :
  (String.length (probe_error_message error) <= 100)%nat.
Proof.
  unfold probe_error_message.
  destruct (JsError.name error =? "AbortError")%string; [cbn; lia|].
  destruct (JsError.message error) as [m|]; [|cbn; lia].
  destruct (truthy_string m); [apply substring0_length | cbn; lia].
Qed.

End Prober.

(** C4: when the request gets a response, [ssl_valid] of the probe is
    (the URL starts with https://) and (the response status is in the success
    range or the certificate strategies found a valid certificate).  On a URL
    that is not https, [ssl_valid] is false, the request is the only call of
    the probe, and each strategy on its own returns [{ ssl_valid: false }]
    without making any call. *)
Theorem checkWebsiteStatus_ssl_valid (env : Env) (url : string) (h : Trace) (code : Z) :
  fetch_outcome env h url = Responded code ->
  let probe := fst (checkWebsiteStatus env url h) in
  let inspector := fst (selectSslInfo env url (Fetch url :: h)) in
  StatusCheck.status probe = (if ok code then Up else Down)
  /\ (ok code = true <-> 200 <= code <= 299)
  /\ StatusCheck.ssl_valid probe
     = startsWith url "https://" && (ok code || SslInfo.ssl_valid inspector)
  /\ (startsWith url "https://" = false ->
        StatusCheck.ssl_valid probe = false
        /\ snd (checkWebsiteStatus env url h) = Fetch url :: h
        /\ (forall k, getSSLCertificateInfo env url k = (SslInfo.invalid, k))
        /\ (forall k, checkSSLWithChecker env url k = (SslInfo.invalid, k))).
Proof.
  intros Hf probe inspector. subst probe inspector.
  rewrite (checkWebsiteStatus_responded env url h code Hf). cbn [fst snd].
  split; [reflexivity|]. split; [unfold ok; rewrite andb_true_iff; lia|].
  split; [reflexivity|]. intros Hs. rewrite Hs. split; [reflexivity|].
  split; [now rewrite (selectSslInfo_not_https env url _ Hs)|].
  split; intros k.
  - now apply getSSLCertificateInfo_not_https.
  - now apply checkSSLWithChecker_not_https.
Qed.

Lemma checkWebsiteStatus_ssl_valid_witness :
  fetch_outcome healthy [] "http://example.com" = Responded 200
  /\ StatusCheck.status (fst (checkWebsiteStatus healthy "http://example.com" [])) = Up
  /\ StatusCheck.ssl_valid (fst (checkWebsiteStatus healthy "http://example.com" [])) = false
  /\ snd (checkWebsiteStatus healthy "http://example.com" []) = [Fetch "http://example.com"].
Proof.
  destruct (checkWebsiteStatus_ssl_valid healthy "http://example.com" [] 200 eq_refl)
    as [Hstatus [_ [_ Hplain]]].
  destruct (Hplain eq_refl) as [Hvalid [Htrace _]].
  split; [reflexivity|]. split; [exact Hstatus|]. split; [exact Hvalid | exact Htrace].
Defined.

(** C7: when the request throws, the probe has status [Error].  Its message
    is "Request timeout" for an abort, otherwise the first 100 characters of
    the message of the error ("Connection failed" when the error has no
    message), and never longer than 100 characters.  The certificate fields
    are those of the strategies run after the failed request, so on an https
    URL the TLS connection is still attempted. *)
Theorem checkWebsiteStatus_on_error (env : Env) (url : string) (h : Trace)
  (error : JsError.t) :
  fetch_outcome env h url = Rejected error ->
  let probe := fst (checkWebsiteStatus env url h) in
  let inspector := selectSslInfo env url (Fetch url :: h) in
  StatusCheck.status probe = Error
  /\ (exists m,
        StatusCheck.error_message probe = Some m
        /\ (String.length m <= 100)%nat
        /\ (JsError.name error = "AbortError" -> m = "Request timeout")
        /\ (JsError.name error <> "AbortError" ->
              forall msg, JsError.message error = Some msg -> msg <> "" ->
                          m = substring0 100 msg)
        /\ (JsError.name error <> "AbortError" ->
              JsError.message error = None \/ JsError.message error = Some "" ->
              m = "Connection failed"))
  /\ checkWebsiteStatus env url h
     = (probe_record Error (SslInfo.ssl_valid (fst inspector)) (fst inspector)
          (Date_now env (Fetch url :: h) - Date_now env h)
          (Some (probe_error_message error)),
        snd inspector)
  /\ (startsWith url "https://" = true ->
        forall urlObj, new_URL url = Some urlObj ->
          In (TlsConnect (if truthy_string (URL.port urlObj)
                          then parseInt (URL.port urlObj) else 443)
                         (URL.hostname urlObj))
             (snd (checkWebsiteStatus env url h))).
Proof.
  intros Hf probe inspector. subst probe inspector.
  rewrite (checkWebsiteStatus_rejected env url h error Hf). cbn [fst snd].
  split; [reflexivity|]. split; [|split; [reflexivity|]].
  - exists (probe_error_message error). split; [reflexivity|].
    split; [apply probe_error_message_length|].
    unfold probe_error_message.
    destruct (String.eqb_spec (JsError.name error) "AbortError") as [Hn|Hn].
    + split; [reflexivity|]. split; intros; contradiction.
    + split; [intros; contradiction|]. split.
      * intros _ msg -> Hmsg. apply truthy_string_nonempty in Hmsg. now rewrite Hmsg.
      * intros _ [-> | ->]; reflexivity.
  - intros Hs urlObj Hu. now apply selectSslInfo_consults_native.
Qed.

Lemma checkWebsiteStatus_on_error_witness :
  fetch_outcome unreachable [] "https://example.com"
  = Rejected (JsError.mk "TypeError" (Some "fetch failed"))
  /\ StatusCheck.status (fst (checkWebsiteStatus unreachable "https://example.com" [])) = Error
  /\ checkWebsiteStatus unreachable "https://example.com" []
     = ({| StatusCheck.status := Error;
           StatusCheck.ssl_valid := true;
           StatusCheck.ssl_renew_date := Some "1690000000000";
           StatusCheck.ssl_issued_date := Some "1690000000000";
           StatusCheck.ssl_expire_date := Some "1710000000000";
           StatusCheck.ssl_expires := Some "1710000000000";
           StatusCheck.ssl_days_remaining := Some 115;
           StatusCheck.response_time := Some 1000;
           StatusCheck.error_message := Some "fetch failed" |},
        [TlsConnect 443 "example.com"; Fetch "https://example.com"]).
Proof.
  destruct (checkWebsiteStatus_on_error unreachable "https://example.com" []
              (JsError.mk "TypeError" (Some "fetch failed")) eq_refl)
    as [Hstatus [_ [Hrecord _]]].
  split; [reflexivity|]. split; [exact Hstatus|].
  rewrite Hrecord. reflexivity.
Defined.

(** ** Browser computations *)

Section Computations.

Variable env : Env.

Lemma extends_refl (P : Call -> Prop) (h : Trace) : extends_with P h h.
Proof. exists []. split; [reflexivity | constructor]. Qed.

Lemma extends_cons (P : Call -> Prop) (c : Call) (h : Trace) :
  P c -> extends_with P h (c :: h).
Proof. intros Hc. exists [c]. split; [reflexivity | repeat constructor; exact Hc]. Qed.

Lemma extends_trans (P : Call -> Prop) (h1 h2 h3 : Trace) :
  extends_with P h1 h2 -> extends_with P h2 h3 -> extends_with P h1 h3.
Proof.
  intros [a [-> Ha]] [b [-> Hb]]. exists (b ++ a)%list.
  split; [now rewrite app_assoc | now apply Forall_app].
Qed.

Lemma extends_weaken (P Q : Call -> Prop) (h h' : Trace) :
  (forall c, P c -> Q c) -> extends_with P h h' -> extends_with Q h h'.
Proof.
  intros HPQ [new [-> Hnew]]. exists new. split; [reflexivity|].
  eapply Forall_impl; eauto.
Qed.

Lemma footprint_retB {A} (P : Call -> Prop) (a : A) : footprint P (retB a).
Proof. intros h. apply extends_refl. Qed.

Lemma footprint_bindB {A C} (P : Call -> Prop) (m : B A) (k : A -> B C) :
  footprint P m -> (forall a, footprint P (k a)) -> footprint P (bindB m k).
Proof.
  intros Hm Hk h. unfold bindB. specialize (Hm h).
  destruct (m h) as [[e|a] h1]; cbn [snd] in *; [exact Hm|].
  eapply extends_trans; [exact Hm | apply Hk].
Qed.

Lemma footprint_await (P : Call -> Prop) (c : Call) :
  P c -> footprint P (await env c).
Proof.
  intros Hc h. unfold await.
  destruct (browser_outcome env h c); cbn [snd]; now apply extends_cons.
Qed.

Lemma footprint_tell (P : Call -> Prop) (c : Call) :
  P c -> footprint P (lift (tell c)).
Proof. intros Hc h. cbn. now apply extends_cons. Qed.

Lemma footprint_now (P : Call -> Prop) : footprint P (lift (now env)).
Proof. intros h. cbn. apply extends_refl. Qed.

Lemma footprint_swallow (P : Call -> Prop) (m : B unit) :
  footprint P m -> footprint P (swallow m).
Proof.
  intros Hm h. unfold swallow. specialize (Hm h).
  destruct (m h) as [r h1]. exact Hm.
Qed.

Lemma succeeds_retB {A} (a : A) : succeeds (retB a).
Proof. intros h. now exists a, h. Qed.

Lemma succeeds_bindB {A C} (m : B A) (k : A -> B C) :
  succeeds m -> (forall a, succeeds (k a)) -> succeeds (bindB m k).
Proof.
  intros Hm Hk h. unfold bindB. destruct (Hm h) as [a [h1 ->]]. apply Hk.
Qed.

Lemma succeeds_lift {A} (m : M A) : succeeds (lift m).
Proof. intros h. unfold lift. destruct (m h) as [a h1]. now exists a, h1. Qed.

Lemma succeeds_swallow (m : B unit) : succeeds (swallow m).
Proof. intros h. unfold swallow. destruct (m h) as [r h1]. now exists tt, h1. Qed.

Lemma succeeds_await (c : Call) :
  only_races_throw env ->
  (forall selectors ms, c <> WaitRace selectors ms) ->
  succeeds (await env c).
Proof.
  intros Henv Hc h. unfold await. rewrite (Henv h c Hc). now exists tt, (c :: h).
Qed.

End Computations.

(** ** The page of a capture *)

Section Page.

Variable env : Env.

(** The page of a capture only sees the calls of its profile. *)
Lemma capture_page_footprint (url : string) (id : Z) :
  footprint (page_call env url id)
            (capture_page env url id (needsSpecialHandling url)).
Proof.
  unfold capture_page.
  destruct (needsSpecialHandling url) eqn:Hspecial;
    repeat first
      [ apply footprint_bindB; [|intros ?]
      | apply footprint_swallow
      | apply footprint_now
      | apply footprint_retB
      | apply footprint_await
      | apply footprint_tell ];
    cbn [page_call]; unfold profile_timeout, profile_waitUntil;
    rewrite ?Hspecial; auto; eauto.
Qed.

Lemma capture_page_succeeds (url : string) (id : Z) (isSpecialSite : bool) :
  only_races_throw env -> succeeds (capture_page env url id isSpecialSite).
Proof.
  intros Henv. unfold capture_page.
  destruct isSpecialSite;
    repeat first
      [ apply succeeds_bindB; [|intros ?]
      | apply succeeds_swallow
      | apply succeeds_lift
      | apply succeeds_retB
      | apply succeeds_await; [exact Henv | intros; discriminate] ].
Qed.

End Page.

(** ** Screenshots *)

Section Screenshots.

Variable env : Env.

Lemma shot_in_cons (id : Z) (c : Call) (h h' : Trace) (path : string) :
  shot_in env id h h' path -> shot_in env id h (c :: h') path.
Proof.
  intros [newer [earlier [-> Ho]]]. exists (c :: newer), earlier.
  split; [reflexivity | exact Ho].
Qed.

Lemma shot_in_since (P : Call -> Prop) (id : Z) (h0 h h' : Trace) (path : string) :
  extends_with P h0 h -> shot_in env id h h' path -> shot_in env id h0 h' path.
Proof.
  intros [new [-> _]] [newer [earlier [-> Ho]]]. exists newer, (earlier ++ new)%list.
  cbv zeta in *. rewrite <- !app_assoc. split; [reflexivity | exact Ho].
Qed.

Lemma shot_in_written (id : Z) (h h' : Trace) (path : string) :
  shot_in env id h h' path ->
  exists file,
    path = "/screenshots/" ++ file
    /\ written env h' (screenshotsDir env ++ "/" ++ file).
Proof.
  intros [newer [earlier [-> [Ho ->]]]]. eexists. split; [reflexivity|].
  exists newer, (earlier ++ h)%list. split; [reflexivity | exact Ho].
Qed.

Lemma takes_shot_bindB {A} (id : Z) (m : B A) (k : A -> B string) :
  footprint (fun _ => True) m ->
  (forall a, takes_shot env id (k a)) ->
  takes_shot env id (bindB m k).
Proof.
  intros Hm Hk h path h'. unfold bindB. specialize (Hm h).
  destruct (m h) as [[e|a] h1]; [discriminate|]. cbn [snd] in Hm.
  intros Hrun. eapply shot_in_since; [exact Hm | exact (Hk a h1 path h' Hrun)].
Qed.

(** The last three steps of the [try] block: the reading of the clock, the
    screenshot, then the path. *)
Lemma screenshot_takes_shot (id : Z) :
  takes_shot env id
    (t <- lift (now env) ;;
     let fileName := string_of_Z id ++ "_" ++ string_of_Z t ++ ".png" in
     let filePath := screenshotsDir env ++ "/" ++ fileName in
     await env (PageScreenshot filePath) ;;;
     retB ("/screenshots/" ++ fileName))%browser.
Proof.
  intros h path h'. cbv [bindB lift now await retB].
  destruct (browser_outcome env h _) eqn:Ho; [discriminate|].
  intros [= <- <-]. exists [], []. cbv zeta.
  split; [reflexivity|]. split; [exact Ho | reflexivity].
Qed.

(** A path the page returns is that of a screenshot it took. *)
Lemma capture_page_shot (url : string) (id : Z) (isSpecialSite : bool) :
  takes_shot env id (capture_page env url id isSpecialSite).
Proof.
  unfold capture_page.
  do 6 (apply takes_shot_bindB;
        [ destruct isSpecialSite;
          repeat first
            [ apply footprint_bindB; [|intros ?]
            | apply footprint_swallow
            | apply footprint_await; exact I
            | apply footprint_tell; exact I ]
        | intros ? ]).
  apply screenshot_takes_shot.
Qed.

End Screenshots.


(** ** Traces *)

Section Traces.

Variable env : Env.

Lemma fetched_app (new h : Trace) :
  fetched (new ++ h)%list = (fetched new ++ fetched h)%list.
Proof.
  induction new as [|c new IH]; [reflexivity|].
  destruct c; cbn [app fetched]; rewrite IH; reflexivity.
Qed.

Lemma launches_app (new h : Trace) :
  launches (new ++ h)%list = (launches new + launches h)%nat.
Proof.
  induction new as [|c new IH]; [reflexivity|].
  destruct c; cbn [app launches]; rewrite IH; reflexivity.
Qed.

Lemma fetched_capture (url : string) (id : Z) (new : Trace) :
  Forall (capture_call env url id) new -> fetched new = [].
Proof.
  induction 1 as [|c new Hc _ IH]; [reflexivity|].
  destruct c; cbn in *; try contradiction; exact IH.
Qed.

Lemma launches_page (url : string) (id : Z) (new : Trace) :
  Forall (page_call env url id) new -> launches new = 0%nat.
Proof.
  induction 1 as [|c new Hc _ IH]; [reflexivity|].
  destruct c; cbn in *; try contradiction; exact IH.
Qed.





Lemma page_call_capture_call (url : string) (id : Z) (c : Call) :
  page_call env url id c -> capture_call env url id c.
Proof. destruct c; cbn; auto; contradiction. Qed.

End Traces.

(** ** Screenshot capturer *)

Section Capturer.

Variable env : Env.

Lemma close_if_trace (browser : bool) (h : Trace) :
  snd (close_if env browser h) = if browser then Close :: h else h.
Proof.
  destruct browser; [|reflexivity].
  unfold close_if, await. now destruct (browser_outcome env h Close).
Qed.

Lemma close_if_resolves (browser : bool) (h : Trace) :
  closes_resolve env -> fst (close_if env browser h) = inr tt.
Proof.
  intros Henv. destruct browser; [|reflexivity].
  unfold close_if, await. now rewrite Henv.
Qed.

Lemma finally_trace (browser : bool) (completion : JsError.t + option string)
  (h : Trace) :
  snd (finally env browser completion h) = if browser then Close :: h else h.
Proof.
  unfold finally. rewrite <- close_if_trace.
  now destruct (close_if env browser h) as [[e|u] h'].
Qed.

Lemma finally_value (browser : bool) (completion : JsError.t + option string)
  (h : Trace) (shot : option string) :
  fst (finally env browser completion h) = inr shot -> completion = inr shot.
Proof.
  unfold finally. destruct (close_if env browser h) as [[e|u] h']; [discriminate|].
  trivial.
Qed.

Lemma settle_trace (caller_close : JsError.t + unit)
  (result : (JsError.t + option string) * Trace) :
  snd (settle caller_close result) = snd result.
Proof. now destruct caller_close. Qed.

Lemma settle_value (caller_close : JsError.t + unit)
  (result : (JsError.t + option string) * Trace) (shot : option string) :
  fst (settle caller_close result) = inr shot -> fst result = inr shot.
Proof. destruct caller_close; [discriminate | trivial]. Qed.

(** One attempt: the launch, the closing of the caller's browser, then
    calls on the page if the launch resolved. *)
Lemma attempt_shape (url : string) (id : Z) (caller : bool) (h : Trace) :
  let launch := Launch (launch_args (needsSpecialHandling url)) in
  exists page,
    Attempt.trace (attempt env url id caller h)
    = (page ++ (if caller then [Close] else []) ++ launch :: h)%list
    /\ Forall (page_call env url id) page
    /\ Attempt.browser (attempt env url id caller h)
       = match browser_outcome env h launch with
         | None => true
         | Some _ => false
         end
    /\ Attempt.caller_close (attempt env url id caller h)
       = fst (close_if env caller (launch :: h)).
Proof.
  cbv zeta. unfold attempt, await.
  pose proof (close_if_trace caller
                (Launch (launch_args (needsSpecialHandling url)) :: h)) as Hc.
  destruct (browser_outcome env h _) as [e|];
    destruct (close_if env caller _) as [caller_close h2]; cbn [fst snd] in *; subst h2.
  - exists []. destruct caller; repeat split; constructor.
  - destruct (capture_page_footprint env url id
                (if caller
                 then Close :: Launch (launch_args (needsSpecialHandling url)) :: h
                 else Launch (launch_args (needsSpecialHandling url)) :: h))
      as [page [Hpage Hall]].
    destruct (capture_page env url id _ _) as [r h3]. cbn [fst snd Attempt.trace] in *.
    exists page. subst h3. destruct caller; repeat split; assumption.
Qed.

(** One attempt launches exactly one browser. *)
Lemma attempt_launches (url : string) (id : Z) (caller : bool) (h : Trace) :
  launches (Attempt.trace (attempt env url id caller h)) = S (launches h).
Proof.
  destruct (attempt_shape url id caller h) as [page [-> [Hpage _]]].
  rewrite !launches_app, (launches_page env url id page Hpage).
  now destruct caller.
Qed.

Lemma attempt_footprint (url : string) (id : Z) (caller : bool) (h : Trace) :
  extends_with (capture_call env url id) h (Attempt.trace (attempt env url id caller h)).
Proof.
  destruct (attempt_shape url id caller h) as [page [-> [Hpage _]]].
  exists (page ++ (if caller then [Close] else [])
               ++ [Launch (launch_args (needsSpecialHandling url))])%list.
  split; [now rewrite <- !app_assoc|].
  apply Forall_app. split.
  - eapply Forall_impl; [apply page_call_capture_call | exact Hpage].
  - destruct caller; repeat constructor.
Qed.


(** A path comes from the page, after a launch that resolved. *)
Lemma attempt_shot (url : string) (id : Z) (caller : bool) (h : Trace) (path : string) :
  Attempt.outcome (attempt env url id caller h) = inr path ->
  shot_in env id h (Attempt.trace (attempt env url id caller h)) path.
Proof.
  unfold attempt, await.
  pose proof (close_if_trace caller
                (Launch (launch_args (needsSpecialHandling url)) :: h)) as Hc.
  destruct (browser_outcome env h _) as [e|];
    destruct (close_if env caller _) as [caller_close h2]; [discriminate|].
  cbn [snd] in Hc.
  destruct (capture_page env url id _ h2) as [r h3] eqn:Hrun.
  cbn [Attempt.outcome Attempt.trace]. intros ->.
  apply (shot_in_since env (fun _ => True) id h h2).
  - subst h2. exists (if caller then [Close; Launch (launch_args (needsSpecialHandling url))]
                      else [Launch (launch_args (needsSpecialHandling url))]).
    destruct caller; split; try reflexivity; repeat constructor.
  - exact (capture_page_shot env url id _ h2 path h3 Hrun).
Qed.

(** The body of a call, one level unfolded. *)
Lemma takeScreenshot_call_body (url : string) (id retryCount : Z) (caller : bool)
  (h : Trace) :
  takeScreenshot_call env url id retryCount caller h =
  let a := attempt env url id caller h in
  settle (Attempt.caller_close a)
    match Attempt.outcome a with
    | inr path => finally env (Attempt.browser a) (inr (Some path)) (Attempt.trace a)
    | inl error =>
        if (retryCount <? 1) && retriable error then
          match close_if env (Attempt.browser a) (Attempt.trace a) with
          | (inl e, h2) => finally env (Attempt.browser a) (inl e) h2
          | (inr _, h2) =>
              takeScreenshot_call env url id (retryCount + 1) (Attempt.browser a)
                (Sleep 2000 :: h2)
          end
        else finally env (Attempt.browser a) (inr None) (Attempt.trace a)
    end.
Proof.
  simp takeScreenshot_call. cbv zeta.
  destruct (attempt env url id caller h) as [caller_close browser [error|path] h1];
    simpl; [|reflexivity].
  destruct (Z_lt_dec retryCount 1) as [Hlt|Hge]; simpl.
  - replace (retryCount <? 1) with true by (symmetry; apply Z.ltb_lt; exact Hlt).
    destruct (retriable error); simpl; [|reflexivity].
    destruct (close_if env browser h1) as [[e|u] h2]; reflexivity.
  - replace (retryCount <? 1) with false by (symmetry; apply Z.ltb_ge; lia).
    reflexivity.
Qed.

(** Induction along the retries that are left. *)
Lemma retries_induction (P : Z -> bool -> Trace -> Prop) :
  (forall retryCount caller h,
     (retryCount < 1 -> forall browser h', P (retryCount + 1) browser h') ->
     P retryCount caller h) ->
  forall retryCount caller h, P retryCount caller h.
Proof.
  intros Hstep retryCount.
  remember (retries_left retryCount) as n eqn:Hn. revert retryCount Hn.
  induction n as [|n IH]; intros retryCount Hn caller h; apply Hstep; intros Hlt.
  - unfold retries_left in Hn. lia.
  - intros browser h'. apply IH. unfold retries_left in *. lia.
Qed.

End Capturer.

(** ** Calls of the capturer *)

(** Opens the body of a call and names the parts of its attempt. *)
Ltac open_call caller_close browser outcome h1 :=
  rewrite takeScreenshot_call_body; cbv zeta;
  match goal with
  | |- context [attempt ?env ?url ?id ?caller ?h] =>
      destruct (attempt env url id caller h) as [caller_close browser outcome h1]
  end;
  cbn [Attempt.caller_close Attempt.browser Attempt.outcome Attempt.trace] in *.

(** Induction along the retries left, on a statement about every call. *)
Ltac by_retries :=
  match goal with
  | |- forall (retryCount : Z) (caller : bool) (h : Trace), @?P retryCount caller h =>
      apply (retries_induction P)
  end.

Section Calls.

Variable env : Env.
Variable url : string.
Variable id : Z.

(** Launches of a call, bounded by the retries still allowed. *)
Lemma takeScreenshot_call_launches :
  forall (retryCount : Z) (caller : bool) (h : Trace),
    (launches (snd (takeScreenshot_call env url id retryCount caller h))
     <= launches h + 1 + retries_left retryCount)%nat.
Proof.
  by_retries. intros retryCount caller h IH.
  pose proof (attempt_launches env url id caller h) as Ha.
  open_call caller_close browser outcome h1. rewrite settle_trace.
  destruct outcome as [error|path].
  - destruct ((retryCount <? 1) && retriable error) eqn:Hr.
    + apply andb_true_iff in Hr. destruct Hr as [Hlt _]. apply Z.ltb_lt in Hlt.
      pose proof (close_if_trace env browser h1) as Hc.
      destruct (close_if env browser h1) as [[e|u] h2]; cbn [snd] in Hc; subst h2.
      * rewrite finally_trace. destruct browser; cbn [launches]; lia.
      * specialize (IH Hlt browser (Sleep 2000 :: (if browser then Close :: h1 else h1))).
        assert (retries_left retryCount = S (retries_left (retryCount + 1)))
          by (unfold retries_left; lia).
        destruct browser; cbn [launches] in IH; lia.
    + rewrite finally_trace. destruct browser; cbn [launches]; lia.
  - rewrite finally_trace. destruct browser; cbn [launches]; lia.
Qed.

(** Every call launches at least once. *)
Lemma takeScreenshot_call_launches_once :
  forall (retryCount : Z) (caller : bool) (h : Trace),
    (launches h + 1 <= launches (snd (takeScreenshot_call env url id retryCount caller h)))%nat.
Proof.
  by_retries. intros retryCount caller h IH.
  pose proof (attempt_launches env url id caller h) as Ha.
  open_call caller_close browser outcome h1. rewrite settle_trace.
  destruct outcome as [error|path].
  - destruct ((retryCount <? 1) && retriable error) eqn:Hr.
    + apply andb_true_iff in Hr. destruct Hr as [Hlt _]. apply Z.ltb_lt in Hlt.
      pose proof (close_if_trace env browser h1) as Hc.
      destruct (close_if env browser h1) as [[e|u] h2]; cbn [snd] in Hc; subst h2.
      * rewrite finally_trace. destruct browser; cbn [launches]; lia.
      * specialize (IH Hlt browser (Sleep 2000 :: (if browser then Close :: h1 else h1))).
        destruct browser; cbn [launches] in IH; lia.
    + rewrite finally_trace. destruct browser; cbn [launches]; lia.
  - rewrite finally_trace. destruct browser; cbn [launches]; lia.
Qed.

(** Every call a capture makes is one of its profile. *)
Lemma takeScreenshot_call_footprint :
  forall (retryCount : Z) (caller : bool) (h : Trace),
    extends_with (capture_call env url id) h
                 (snd (takeScreenshot_call env url id retryCount caller h)).
Proof.
  by_retries. intros retryCount caller h IH.
  pose proof (attempt_footprint env url id caller h) as Ha.
  assert (Hclose : forall (browser : bool) k,
             extends_with (capture_call env url id) k (if browser then Close :: k else k))
    by (intros [|] k; [now apply extends_cons | apply extends_refl]).
  open_call caller_close browser outcome h1. rewrite settle_trace.
  eapply extends_trans; [exact Ha|].
  destruct outcome as [error|path].
  - destruct ((retryCount <? 1) && retriable error) eqn:Hr.
    + apply andb_true_iff in Hr. destruct Hr as [Hlt _]. apply Z.ltb_lt in Hlt.
      pose proof (close_if_trace env browser h1) as Hc.
      destruct (close_if env browser h1) as [[e|u] h2]; cbn [snd] in Hc; subst h2;
        (eapply extends_trans; [apply (Hclose browser)|]).
      * rewrite finally_trace. apply Hclose.
      * eapply extends_trans; [apply (extends_cons _ (Sleep 2000)); reflexivity|].
        now apply IH.
    + rewrite finally_trace. apply Hclose.
  - rewrite finally_trace. apply Hclose.
Qed.


(** A path a call returns is that of a screenshot the call took. *)
Lemma takeScreenshot_call_shot (path : string) :
  forall (retryCount : Z) (caller : bool) (h : Trace),
    fst (takeScreenshot_call env url id retryCount caller h) = inr (Some path) ->
    shot_in env id h (snd (takeScreenshot_call env url id retryCount caller h)) path.
Proof.
  by_retries. intros retryCount caller h IH.
  pose proof (attempt_shot env url id caller h) as Ha.
  pose proof (attempt_footprint env url id caller h) as Hf.
  open_call caller_close browser outcome h1. rewrite settle_trace.
  intros Hp. apply settle_value in Hp. revert Hp.
  destruct outcome as [error|p].
  - destruct ((retryCount <? 1) && retriable error) eqn:Hr.
    + apply andb_true_iff in Hr. destruct Hr as [Hlt _]. apply Z.ltb_lt in Hlt.
      pose proof (close_if_trace env browser h1) as Hc.
      destruct (close_if env browser h1) as [[e|u] h2]; cbn [snd] in Hc; subst h2.
      * intros Hp. apply finally_value in Hp. discriminate.
      * intros Hp.
        apply (shot_in_since env (capture_call env url id) id h
                 (Sleep 2000 :: (if browser then Close :: h1 else h1))).
        -- eapply extends_trans; [exact Hf|].
           destruct browser.
           ++ exists [Sleep 2000; Close]. split; [reflexivity | repeat constructor].
           ++ exists [Sleep 2000]. split; [reflexivity | repeat constructor].
        -- now apply IH.
    + intros Hp. apply finally_value in Hp. discriminate.
  - intros Hp. apply finally_value in Hp. injection Hp as ->.
    rewrite finally_trace. specialize (Ha path eq_refl).
    destruct browser; [now apply shot_in_cons | exact Ha].
Qed.

End Calls.

Section Retries.

Variable env : Env.

(** A call that may not retry: its outcome is that of its one attempt. *)
Lemma takeScreenshot_call_last (url : string) (id retryCount : Z) (caller : bool)
  (h : Trace) :
  1 <= retryCount ->
  takeScreenshot_call env url id retryCount caller h =
  let a := attempt env url id caller h in
  settle (Attempt.caller_close a)
    (finally env (Attempt.browser a)
       match Attempt.outcome a with
       | inr path => inr (Some path)
       | inl _ => inr None
       end
       (Attempt.trace a)).
Proof.
  intros Hge. rewrite takeScreenshot_call_body. cbv zeta.
  replace (retryCount <? 1) with false by (symmetry; apply Z.ltb_ge; lia).
  now destruct (Attempt.outcome _).
Qed.

Lemma close_if_resolved (browser : bool) (h : Trace) :
  closes_resolve env ->
  close_if env browser h = (inr tt, if browser then Close :: h else h).
Proof.
  intros Henv. rewrite (surjective_pairing (close_if env browser h)).
  now rewrite close_if_trace, close_if_resolves.
Qed.

Lemma finally_resolved (browser : bool) (completion : JsError.t + option string)
  (h : Trace) :
  closes_resolve env ->
  finally env browser completion h = (completion, if browser then Close :: h else h).
Proof.
  intros Henv. unfold finally. now rewrite close_if_resolved.
Qed.

Lemma attempt_caller_close (url : string) (id : Z) (caller : bool) (h : Trace) :
  closes_resolve env -> Attempt.caller_close (attempt env url id caller h) = inr tt.
Proof.
  intros Henv. destruct (attempt_shape env url id caller h) as [_ [_ [_ [_ ->]]]].
  now apply close_if_resolves.
Qed.

(** The capture [POST] awaits, when closing never fails: the first attempt,
    and a second one after an error the [catch] block retries. *)
Lemma takeScreenshot_resolved (url : string) (id : Z) (h : Trace) :
  closes_resolve env ->
  takeScreenshot env url id 0 h =
  let first := attempt env url id false h in
  let closed := if Attempt.browser first
                then Close :: Attempt.trace first else Attempt.trace first in
  match Attempt.outcome first with
  | inr path => (inr (Some path), closed)
  | inl error =>
      if retriable error then
        let second := attempt env url id (Attempt.browser first) (Sleep 2000 :: closed) in
        (inr match Attempt.outcome second with
             | inr path => Some path
             | inl _ => None
             end,
         if Attempt.browser second
         then Close :: Attempt.trace second else Attempt.trace second)
      else (inr None, closed)
  end.
Proof.
  intros Henv. unfold takeScreenshot. rewrite takeScreenshot_call_body. cbv zeta.
  rewrite (attempt_caller_close url id false h Henv). cbn [settle].
  destruct (Attempt.outcome (attempt env url id false h)) as [error|path];
    [|now apply finally_resolved].
  change (0 <? 1) with true. cbn [andb].
  destruct (retriable error); [|now apply finally_resolved].
  rewrite (close_if_resolved _ _ Henv).
  rewrite takeScreenshot_call_last by lia. cbv zeta.
  rewrite (attempt_caller_close url id _ _ Henv). cbn [settle].
  rewrite (finally_resolved _ _ _ Henv).
  now destruct (Attempt.outcome _).
Qed.

End Retries.

(** The retry rule of the capturer.  Whatever the browser does, a call
    launches at least one browser and at most one more than the retries the
    guard [retryCount < 1] still allows, a number the recursive call lowers;
    so a capture started at 0 launches at most two.  When closing never
    fails, a capture started at 0 is its first attempt and, after an error
    whose message contains "timeout" or "Navigation" and no other, a second
    attempt: the browser is closed, the capture pauses for 2000 ms, the
    second browser is launched, the [finally] block closes the first one
    again, and the outcome of the second attempt is the result, with no
    path when it fails too. *)
Theorem takeScreenshot_retry_rule (env : Env) (url : string) (id : Z) (h : Trace) :
  let launch := Launch (launch_args (needsSpecialHandling url)) in
  let first := attempt env url id false h in
  let closed := if Attempt.browser first
                then Close :: Attempt.trace first else Attempt.trace first in
  let second := attempt env url id (Attempt.browser first) (Sleep 2000 :: closed) in
  (forall retryCount,
     (launches h + 1 <= launches (snd (takeScreenshot env url id retryCount h))
      <= launches h + 1 + retries_left retryCount)%nat
     /\ (retryCount < 1 -> (retries_left (retryCount + 1) < retries_left retryCount)%nat))
  /\ (launches (snd (takeScreenshot env url id 0 h)) <= launches h + 2)%nat
  /\ (closes_resolve env ->
      (forall path,
         Attempt.outcome first = inr path ->
         takeScreenshot env url id 0 h = (inr (Some path), closed)
         /\ launches closed = (launches h + 1)%nat)
      /\ (forall error,
            Attempt.outcome first = inl error -> retriable error = false ->
            takeScreenshot env url id 0 h = (inr None, closed)
            /\ launches closed = (launches h + 1)%nat)
      /\ (forall error,
            Attempt.outcome first = inl error -> retriable error = true ->
            takeScreenshot env url id 0 h
            = (inr match Attempt.outcome second with
                   | inr path => Some path
                   | inl _ => None
                   end,
               if Attempt.browser second
               then Close :: Attempt.trace second else Attempt.trace second)
            /\ (exists page,
                  Attempt.trace second
                  = (page ++ (if Attempt.browser first then [Close] else [])
                          ++ launch :: Sleep 2000 :: closed)%list
                  /\ Forall (page_call env url id) page)
            /\ launches (snd (takeScreenshot env url id 0 h)) = (launches h + 2)%nat)).
Proof.
  cbv zeta.
  pose proof (attempt_launches env url id false h) as Hfirst.
  assert (Hclosed : forall a : Attempt.t,
            launches (if Attempt.browser a then Close :: Attempt.trace a else Attempt.trace a)
            = launches (Attempt.trace a))
    by (intros a; now destruct (Attempt.browser a)).
  split; [|split].
  - intros retryCount. split; [split|].
    + apply takeScreenshot_call_launches_once.
    + apply takeScreenshot_call_launches.
    + unfold retries_left. lia.
  - pose proof (takeScreenshot_call_launches env url id 0 false h) as Hb.
    unfold takeScreenshot. change (retries_left 0) with 1%nat in Hb. lia.
  - intros Henv. rewrite (takeScreenshot_resolved env url id h Henv). cbv zeta.
    split; [|split].
    + intros path ->. split; [reflexivity|]. rewrite Hclosed. lia.
    + intros error -> ->. split; [reflexivity|]. rewrite Hclosed. lia.
    + intros error -> ->. split; [reflexivity|].
      destruct (attempt_shape env url id (Attempt.browser (attempt env url id false h))
                  (Sleep 2000 :: (if Attempt.browser (attempt env url id false h)
                                  then Close :: Attempt.trace (attempt env url id false h)
                                  else Attempt.trace (attempt env url id false h))))
        as [page [Htrace [Hpage _]]].
      split; [now exists page|].
      cbn [snd]. rewrite Hclosed, attempt_launches. cbn [launches].
      rewrite Hclosed. lia.
Qed.

Lemma stalling_closes : closes_resolve stalling.
Proof. intros h. reflexivity. Qed.

Lemma takeScreenshot_retry_rule_witness :
  closes_resolve stalling
  /\ retriable (JsError.mk "TimeoutError" (Some "Navigation timeout of 45000 ms exceeded")) = true
  /\ fst (takeScreenshot stalling "https://example.com" 7 0 []) = inr None
  /\ launches (snd (takeScreenshot stalling "https://example.com" 7 0 [])) = 2%nat.
Proof.
  destruct (takeScreenshot_retry_rule stalling "https://example.com" 7 [])
    as [_ [_ Hrule]].
  destruct (Hrule stalling_closes) as [_ [_ Hretry]].
  destruct (Hretry (JsError.mk "TimeoutError" (Some "Navigation timeout of 45000 ms exceeded"))
              eq_refl eq_refl)
    as [Hresult [_ Hlaunches]].
  split; [exact stalling_closes|]. split; [reflexivity|].
  split; [rewrite Hresult; reflexivity | exact Hlaunches].
Defined.

(** C9: a navigation that runs into its timeout is not retried.  The error
    of [page.goto] then carries the message "page.goto: Timeout 45000ms
    exceeded.", in which the test of the [catch] block finds neither
    "timeout" nor "Navigation": the capture ends after one launch, without a
    path, without the pause and without a second attempt. *)
Theorem takeScreenshot_timeout_not_retried :
  let error := JsError.mk "TimeoutError" (Some "page.goto: Timeout 45000ms exceeded.") in
  let launch := Launch (launch_args false) in
  Attempt.outcome (attempt timing_out "https://example.com" 7 false []) = inl error
  /\ retriable error = false
  /\ takeScreenshot timing_out "https://example.com" 7 0 []
     = (inr None,
        [ Close; Goto "https://example.com" "networkidle" 45000;
          SetDefaultNavigationTimeout 45000; SetDefaultTimeout 45000;
          SetViewportSize 1920 1080; NewPage; launch ])
  /\ launches (snd (takeScreenshot timing_out "https://example.com" 7 0 [])) = 1%nat.
Proof. cbv zeta. repeat split; vm_compute; reflexivity. Qed.

(** A screenshot path names the site and the time of the screenshot: it is
    "/screenshots/", the id of the site, an underscore, the reading of the
    clock at the call of [page.screenshot] that wrote the file, a call this
    capture made, and ".png".  The id is a safe integer, which is what the
    template literal prints digit by digit. *)
Theorem takeScreenshot_file_name (env : Env) (url : string) (id retryCount : Z)
  (h : Trace) (path : string) :
  Z.abs id <= 9007199254740991 ->
  fst (takeScreenshot env url id retryCount h) = inr (Some path) ->
  exists newer earlier,
    let older := (earlier ++ h)%list in
    let fileName := string_of_Z id ++ "_" ++ string_of_Z (Date_now env older) ++ ".png" in
    snd (takeScreenshot env url id retryCount h)
    = (newer ++ PageScreenshot (cwd env ++ "/public/screenshots" ++ "/" ++ fileName)
             :: older)%list
    /\ path = "/screenshots/" ++ fileName.
Proof.
  intros _ Hp. unfold takeScreenshot in *.
  destruct (takeScreenshot_call_shot env url id path retryCount false h Hp)
    as [newer [earlier [Htrace [_ Hpath]]]].
  exists newer, earlier. cbv zeta.
  unfold screenshotsDir in Htrace. rewrite append_assoc in Htrace.
  split; [exact Htrace | exact Hpath].
Qed.

Lemma takeScreenshot_file_name_witness :
  Z.abs 1 <= 9007199254740991
  /\ fst (takeScreenshot healthy "https://example.com" 1 0 [])
     = inr (Some "/screenshots/1_1700000008000.png")
  /\ exists newer earlier,
       let older := (earlier ++ [])%list in
       let fileName := string_of_Z 1 ++ "_" ++ string_of_Z (Date_now healthy older)
                       ++ ".png" in
       snd (takeScreenshot healthy "https://example.com" 1 0 [])
       = (newer ++ PageScreenshot (cwd healthy ++ "/public/screenshots" ++ "/" ++ fileName)
                :: older)%list
       /\ "/screenshots/1_1700000008000.png" = "/screenshots/" ++ fileName.
Proof.
  assert (Hid : Z.abs 1 <= 9007199254740991) by (cbn; lia).
  split; [exact Hid|]. split; [reflexivity|].
  exact (takeScreenshot_file_name healthy "https://example.com" 1 0 []
           "/screenshots/1_1700000008000.png" Hid eq_refl).
Defined.

(** A capture makes browser calls only, and only those of its profile: it
    navigates to the URL it was given and nowhere else, with the timeout and
    the [waitUntil] of the profile of that URL, on a 1920 x 1080 viewport; it
    pauses 2000 ms before a retry; and the files it asks the browser to write
    are named after the site id and a clock reading, under the screenshots
    directory. *)
Theorem takeScreenshot_calls (env : Env) (url : string) (id retryCount : Z) (h : Trace) :
  exists new,
    snd (takeScreenshot env url id retryCount h) = (new ++ h)%list
    /\ Forall (capture_call env url id) new
    /\ Forall browser_call new.
Proof.
  destruct (takeScreenshot_call_footprint env url id retryCount false h)
    as [new [Hnew Hall]].
  exists new. split; [exact Hnew|]. split; [exact Hall|].
  eapply Forall_impl; [|exact Hall].
  intros c. destruct c; cbn; auto.
Qed.


(** A failing settle wait does not cost the screenshot: when the race of
    the selector waits is the only browser call that throws, the first
    attempt of a capture returns a path, after a single launch. *)
Theorem takeScreenshot_survives_settle_wait (env : Env) (url : string) (id : Z)
  (h : Trace) :
  only_races_throw env ->
  (exists path, fst (takeScreenshot env url id 0 h) = inr (Some path))
  /\ launches (snd (takeScreenshot env url id 0 h)) = (launches h + 1)%nat.
Proof.
  intros Henv.
  assert (Hclose : closes_resolve env) by (intros k; apply Henv; discriminate).
  assert (Ha : exists path, Attempt.outcome (attempt env url id false h) = inr path).
  { unfold attempt, await.
    rewrite (Henv h (Launch _)) by (intros; discriminate). cbn [close_if retB].
    destruct (capture_page_succeeds env url id (needsSpecialHandling url) Henv
                (Launch (launch_args (needsSpecialHandling url)) :: h))
      as [path [h1 ->]].
    now exists path. }
  destruct Ha as [path Ha].
  pose proof (attempt_launches env url id false h) as Hl.
  rewrite (takeScreenshot_resolved env url id h Hclose). cbv zeta. rewrite Ha.
  split; [now exists path|]. cbn [snd].
  destruct (Attempt.browser _); cbn [launches]; lia.
Qed.

Lemma restless_only_races : only_races_throw restless.
Proof.
  intros h c Hc. destruct c; try reflexivity.
  exfalso. eapply Hc. reflexivity.
Qed.

Lemma takeScreenshot_survives_settle_wait_witness :
  only_races_throw restless
  /\ browser_outcome restless [] (WaitRace ["body"] 5000) <> None
  /\ exists path, fst (takeScreenshot restless "https://example.com" 4 0 []) = inr (Some path).
Proof.
  split; [exact restless_only_races|]. split; [discriminate|].
  exact (proj1 (takeScreenshot_survives_settle_wait restless "https://example.com" 4 []
                  restless_only_races)).
Defined.

(** A path is returned only for a file the browser wrote: when a capture
    returns "/screenshots/" followed by a file name, its trace holds a call
    of [page.screenshot] for that file name under the screenshots directory,
    and that call resolved. *)
Theorem takeScreenshot_path_is_written (env : Env) (url : string) (id retryCount : Z)
  (h : Trace) (path : string) :
  fst (takeScreenshot env url id retryCount h) = inr (Some path) ->
  exists file,
    path = "/screenshots/" ++ file
    /\ written env (snd (takeScreenshot env url id retryCount h))
               (cwd env ++ "/public/screenshots" ++ "/" ++ file).
Proof.
  intros Hp. unfold takeScreenshot in *.
  destruct (shot_in_written env id h _ path
              (takeScreenshot_call_shot env url id path retryCount false h Hp))
    as [file [-> Hw]].
  exists file. split; [reflexivity|].
  unfold screenshotsDir in Hw. now rewrite append_assoc in Hw.
Qed.

Lemma takeScreenshot_path_is_written_witness :
  fst (takeScreenshot healthy "https://example.com" 1 0 [])
  = inr (Some "/screenshots/1_1700000008000.png")
  /\ exists file,
       "/screenshots/1_1700000008000.png" = "/screenshots/" ++ file
       /\ written healthy (snd (takeScreenshot healthy "https://example.com" 1 0 []))
                  ("/app" ++ "/public/screenshots" ++ "/" ++ file).
Proof.
  split; [reflexivity|].
  exact (takeScreenshot_path_is_written healthy "https://example.com" 1 0 [] _ eq_refl).
Defined.

(** ** Errors of the capturer *)

Section Thrown.

Variable env : Env.

Lemma close_failed_since (P : Call -> Prop) (h0 h h' : Trace) (error : JsError.t) :
  extends_with P h0 h -> close_failed env h h' error -> close_failed env h0 h' error.
Proof.
  intros [new [-> _]] [newer [earlier [-> Ho]]]. exists newer, (earlier ++ new)%list.
  rewrite <- !app_assoc. split; [reflexivity | exact Ho].
Qed.

Lemma close_failed_later (P : Call -> Prop) (h h' h'' : Trace) (error : JsError.t) :
  extends_with P h' h'' -> close_failed env h h' error -> close_failed env h h'' error.
Proof.
  intros [new [-> _]] [newer [earlier [-> Ho]]]. exists (new ++ newer)%list, earlier.
  rewrite <- !app_assoc. split; [reflexivity | exact Ho].
Qed.

(** An error of [close_if] is that of the call it made. *)
Lemma close_if_thrown (browser : bool) (h : Trace) (error : JsError.t) :
  fst (close_if env browser h) = inl error ->
  browser = true /\ browser_outcome env h Close = Some error.
Proof.
  destruct browser; [|discriminate]. unfold close_if, await.
  destruct (browser_outcome env h Close); [|discriminate].
  intros [= ->]. now split.
Qed.

Lemma finally_thrown (browser : bool) (completion : JsError.t + option string)
  (h : Trace) (error : JsError.t) :
  fst (finally env browser completion h) = inl error ->
  completion = inl error
  \/ (browser = true /\ browser_outcome env h Close = Some error).
Proof.
  unfold finally. pose proof (close_if_thrown browser h) as Hc.
  destruct (close_if env browser h) as [[e|u] h']; cbn [fst] in *.
  - intros [= <-]. right. now apply Hc.
  - intros ->. now left.
Qed.

(** What a call does after its attempt is on top of the trace of the
    attempt. *)
Lemma takeScreenshot_call_after_attempt (url : string) (id retryCount : Z)
  (caller : bool) (h : Trace) :
  extends_with (capture_call env url id)
    (Attempt.trace (attempt env url id caller h))
    (snd (takeScreenshot_call env url id retryCount caller h)).
Proof.
  assert (Hclose : forall (browser : bool) k,
             extends_with (capture_call env url id) k (if browser then Close :: k else k))
    by (intros [|] k; [now apply extends_cons | apply extends_refl]).
  open_call caller_close browser outcome h1. rewrite settle_trace.
  destruct outcome as [error|path];
    [destruct ((retryCount <? 1) && retriable error)|];
    try (rewrite finally_trace; apply Hclose).
  pose proof (close_if_trace env browser h1) as Hc.
  destruct (close_if env browser h1) as [[e|u] h2]; cbn [snd] in Hc; subst h2;
    (eapply extends_trans; [apply (Hclose browser)|]).
  - rewrite finally_trace. apply Hclose.
  - eapply extends_trans; [apply (extends_cons _ (Sleep 2000)); reflexivity|].
    apply takeScreenshot_call_footprint.
Qed.

(** A call throws only what a closing of a browser threw. *)
Lemma takeScreenshot_call_thrown (url : string) (id : Z) (error : JsError.t) :
  forall (retryCount : Z) (caller : bool) (h : Trace),
    fst (takeScreenshot_call env url id retryCount caller h) = inl error ->
    close_failed env h (snd (takeScreenshot_call env url id retryCount caller h)) error.
Proof.
  by_retries. intros retryCount caller h IH.
  destruct (attempt_shape env url id caller h) as [page [Htrace [_ [_ Hcaller]]]].
  pose proof (attempt_footprint env url id caller h) as Hfirst.
  pose proof (takeScreenshot_call_after_attempt url id retryCount caller h) as Hafter.
  revert Hafter.
  open_call caller_close browser outcome h1. rewrite settle_trace.
  intros Hafter. destruct caller_close as [e|u].
  - (* the closing in the [finally] block of the caller *)
    cbn [settle fst]. intros [= ->]. symmetry in Hcaller.
    apply close_if_thrown in Hcaller. destruct Hcaller as [-> Ho].
    eapply close_failed_later; [exact Hafter|]. subst h1.
    exists page, [Launch (launch_args (needsSpecialHandling url))].
    split; [reflexivity | exact Ho].
  - cbn [settle].
    assert (Hfinally : forall completion k,
               extends_with (capture_call env url id) h k ->
               fst (finally env browser completion k) = inl error ->
               completion <> inl error ->
               close_failed env h (snd (finally env browser completion k)) error).
    { intros completion k Hk Hthrown Hother.
      apply finally_thrown in Hthrown. destruct Hthrown as [|[-> Ho]]; [contradiction|].
      rewrite finally_trace. eapply close_failed_since; [exact Hk|].
      exists [], []. split; [reflexivity | exact Ho]. }
    destruct outcome as [error1|path];
      [destruct ((retryCount <? 1) && retriable error1) eqn:Hr|];
      try (intros Hthrown; apply Hfinally; [exact Hfirst | exact Hthrown | discriminate]).
    apply andb_true_iff in Hr. destruct Hr as [Hlt _]. apply Z.ltb_lt in Hlt.
    pose proof (close_if_trace env browser h1) as Hc.
    pose proof (close_if_thrown browser h1) as Hcatch.
    destruct (close_if env browser h1) as [[e|[]] h2]; cbn [fst snd] in *; subst h2.
    + (* the closing in the [catch] block *)
      destruct (Hcatch e eq_refl) as [-> Ho]. intros Hthrown.
      destruct (finally_thrown _ _ _ _ Hthrown) as [[= ->]|[_ Ho2]];
        rewrite finally_trace; (eapply close_failed_since; [exact Hfirst|]).
      * exists [Close], []. split; [reflexivity | exact Ho].
      * exists [], [Close]. split; [reflexivity | exact Ho2].
    + intros Hthrown.
      apply (close_failed_since (capture_call env url id) h
               (Sleep 2000 :: (if browser then Close :: h1 else h1))).
      * eapply extends_trans; [exact Hfirst|]. destruct browser.
        -- exists [Sleep 2000; Close]. split; [reflexivity | repeat constructor].
        -- exists [Sleep 2000]. split; [reflexivity | repeat constructor].
      * now apply IH.
Qed.

End Thrown.

(** ** Further properties of the pipeline *)

(** The status of a probe tells what became of the request: [Up] for a
    response in the success range, [Down] for any other response, [Error]
    when the request threw. *)
Theorem checkWebsiteStatus_status (env : Env) (url : string) (h : Trace) :
  StatusCheck.status (fst (checkWebsiteStatus env url h))
  = match fetch_outcome env h url with
    | Responded code => if (200 <=? code) && (code <=? 299) then Up else Down
    | Rejected _ => Error
    end.
Proof.
  destruct (fetch_outcome env h url) as [code|error] eqn:Hf.
  - now rewrite (checkWebsiteStatus_responded env url h code Hf).
  - now rewrite (checkWebsiteStatus_rejected env url h error Hf).
Qed.

(** ** Calls of a probe *)

Section ProbeCalls.

Variable env : Env.

(** The native strategy connects at most once, to the host and port of the URL. *)
Lemma getSSLCertificateInfo_calls (url : string) (h : Trace) :
  snd (getSSLCertificateInfo env url h) = h
  \/ exists urlObj,
       startsWith url "https://" = true
       /\ new_URL url = Some urlObj
       /\ snd (getSSLCertificateInfo env url h)
          = TlsConnect (if truthy_string (URL.port urlObj)
                        then parseInt (URL.port urlObj) else 443)
                       (URL.hostname urlObj) :: h.
Proof.
  destruct (startsWith url "https://") eqn:Hs.
  - destruct (new_URL url) as [urlObj|] eqn:Hu.
    + right. exists urlObj. repeat split.
      now apply getSSLCertificateInfo_connects.
    + left. unfold getSSLCertificateInfo. now rewrite Hs, Hu.
  - left. now rewrite (getSSLCertificateInfo_not_https env url h Hs).
Qed.

Lemma selectSslInfo_calls (url : string) (h : Trace) :
  exists tls checker,
    snd (selectSslInfo env url h) = (checker ++ tls ++ h)%list
    /\ (tls = []
        \/ exists urlObj,
             new_URL url = Some urlObj
             /\ tls = [TlsConnect (if truthy_string (URL.port urlObj)
                                   then parseInt (URL.port urlObj) else 443)
                                  (URL.hostname urlObj)])
    /\ (checker = [] \/ checker = [SslChecker (checker_host url)])
    /\ (startsWith url "https://" = false -> tls = [] /\ checker = []).
Proof.
  destruct (startsWith url "https://") eqn:Hs.
  - rewrite selectSslInfo_unfold.
    pose proof (getSSLCertificateInfo_calls url h) as Hn.
    destruct (getSSLCertificateInfo env url h) as [native h1]. cbn [snd] in Hn.
    pose proof (checkSSLWithChecker_trace env url h1 Hs) as Hc.
    destruct (checkSSLWithChecker env url h1) as [checker h2]. cbn [snd] in Hc.
    destruct Hn as [-> | [urlObj [_ [Hu ->]]]];
      destruct (SslInfo.ssl_valid native); cbn [snd];
      try (destruct (SslInfo.ssl_valid checker); cbn [snd]; subst h2);
      match goal with
      | |- exists tls checker, SslChecker ?c :: TlsConnect ?p ?n :: h = _ /\ _ =>
          exists [TlsConnect p n], [SslChecker c]
      | |- exists tls checker, SslChecker ?c :: h = _ /\ _ =>
          exists [], [SslChecker c]
      | |- exists tls checker, TlsConnect ?p ?n :: h = _ /\ _ =>
          exists [TlsConnect p n], []
      | |- exists tls checker, h = _ /\ _ => exists [], []
      end;
      (split; [reflexivity|]);
      (split; [first [now left | right; exists urlObj; now split]|]);
      (split; [first [now left | now right]|]); discriminate.
  - rewrite (selectSslInfo_not_https env url h Hs).
    exists [], []. repeat split; auto.
Qed.

Lemma checkWebsiteStatus_trace (url : string) (h : Trace) :
  snd (checkWebsiteStatus env url h) = snd (selectSslInfo env url (Fetch url :: h)).
Proof.
  destruct (fetch_outcome env h url) as [code|error] eqn:Hf.
  - now rewrite (checkWebsiteStatus_responded env url h code Hf).
  - now rewrite (checkWebsiteStatus_rejected env url h error Hf).
Qed.

End ProbeCalls.

(** A probe makes one HTTP request, for the URL it was given, and after it
    at most one TLS connection, to the host and port of that URL, and at most
    one call of the checker; on a URL that does not start with https:// the
    request is all it does.  It never calls the browser. *)
Theorem checkWebsiteStatus_calls (env : Env) (url : string) (h : Trace) :
  exists tls checker,
    snd (checkWebsiteStatus env url h) = (checker ++ tls ++ Fetch url :: h)%list
    /\ (tls = []
        \/ exists urlObj,
             new_URL url = Some urlObj
             /\ tls = [TlsConnect (if truthy_string (URL.port urlObj)
                                   then parseInt (URL.port urlObj) else 443)
                                  (URL.hostname urlObj)])
    /\ (checker = [] \/ checker = [SslChecker (checker_host url)])
    /\ (startsWith url "https://" = false -> tls = [] /\ checker = []).
Proof.
  rewrite checkWebsiteStatus_trace.
  exact (selectSslInfo_calls env url (Fetch url :: h)).
Qed.

(** ** Certificate records *)

(** The native strategy reports a valid certificate only after a handshake
    that handed over a certificate with both dates, at a time inside its
    window; the record then carries both dates and a day count that is not
    negative. *)
Theorem getSSLCertificateInfo_valid_needs_certificate (env : Env) (url : string)
  (h : Trace) :
  SslInfo.ssl_valid (fst (getSSLCertificateInfo env url h)) = true ->
  startsWith url "https://" = true
  /\ exists urlObj validFrom validTo,
       new_URL url = Some urlObj
       /\ tls_outcome env h
            (if truthy_string (URL.port urlObj) then parseInt (URL.port urlObj) else 443)
            (URL.hostname urlObj)
          = SecureConnect (Some {| valid_from := Some validFrom; valid_to := Some validTo |})
       /\ validFrom <= Date_now env (snd (getSSLCertificateInfo env url h)) <= validTo
       /\ fst (getSSLCertificateInfo env url h)
          = SslInfo.mk true
              (Some (isoDate env validTo)) (Some (isoDate env validTo))
              (Some ((validTo - Date_now env (snd (getSSLCertificateInfo env url h)))
                     / ms_per_day))
              (Some (isoDate env validFrom)) (Some (isoDate env validFrom))
       /\ 0 <= (validTo - Date_now env (snd (getSSLCertificateInfo env url h)))
               / ms_per_day.
Proof.
  unfold getSSLCertificateInfo.
  destruct (startsWith url "https://") eqn:Hs; cbv [negb]; [|discriminate].
  destruct (new_URL url) as [urlObj|]; [|discriminate].
  run.
  destruct (tls_outcome env h _ _) as [[[[validFrom|] [validTo|]]|]| |] eqn:Ht;
    cbn [fst snd on_secure_connect SslInfo.ssl_valid SslInfo.invalid];
    try discriminate.
  intros Hvalid. apply andb_true_iff in Hvalid. destruct Hvalid as [Hfrom Hto].
  apply Z.leb_le in Hfrom. apply Z.leb_le in Hto.
  split; [reflexivity|]. exists urlObj, validFrom, validTo.
  split; [reflexivity|]. split; [exact Ht|]. split; [lia|]. split.
  - f_equal. apply andb_true_iff. split; now apply Z.leb_le.
  - apply Z.div_pos; [lia | unfold ms_per_day; lia].
Qed.

Lemma getSSLCertificateInfo_valid_needs_certificate_witness :
  SslInfo.ssl_valid (fst (getSSLCertificateInfo healthy "https://example.com" [])) = true
  /\ SslInfo.ssl_days_remaining (fst (getSSLCertificateInfo healthy "https://example.com" []))
     = Some 40.
Proof.
  split; [reflexivity|].
  destruct (getSSLCertificateInfo_valid_needs_certificate healthy
              "https://example.com" [] eq_refl)
    as [_ [urlObj [validFrom [validTo [_ [Ht [_ [Hrecord _]]]]]]]].
  rewrite Hrecord. cbn [SslInfo.ssl_days_remaining].
  injection Ht as <- <-. reflexivity.
Defined.

Section Records.

Variable env : Env.

Lemma getSSLCertificateInfo_whole (url : string) (h : Trace) :
  SslInfo.ssl_valid (fst (getSSLCertificateInfo env url h)) = true ->
  whole_record (fst (getSSLCertificateInfo env url h)).
Proof.
  unfold getSSLCertificateInfo.
  destruct (startsWith url "https://"); cbv [negb]; [|discriminate].
  destruct (new_URL url) as [urlObj|]; [|discriminate].
  run.
  destruct (tls_outcome env h _ _) as [[[[validFrom|] [validTo|]]|]| |];
    cbn [fst on_secure_connect SslInfo.ssl_valid SslInfo.invalid];
    try discriminate.
  intros ->. right. eauto.
Qed.

Lemma checkSSLWithChecker_whole (url : string) (h : Trace) :
  SslInfo.ssl_valid (fst (checkSSLWithChecker env url h)) = true ->
  whole_record (fst (checkSSLWithChecker env url h)).
Proof.
  unfold checkSSLWithChecker.
  destruct (startsWith url "https://"); cbv [negb]; [|discriminate].
  run. destruct (checker_outcome env h _) as [valid validFrom validTo days|];
    cbn [fst SslInfo.ssl_valid SslInfo.invalid]; [|discriminate].
  intros ->. right. eauto.
Qed.

(** What the selection block hands to the probe. *)
Lemma selectSslInfo_whole (url : string) (h : Trace) :
  whole_record (fst (selectSslInfo env url h))
  /\ (SslInfo.ssl_valid (fst (selectSslInfo env url h)) = true ->
      startsWith url "https://" = true).
Proof.
  destruct (startsWith url "https://") eqn:Hs.
  - split; [|reflexivity]. rewrite selectSslInfo_unfold.
    pose proof (getSSLCertificateInfo_whole url h) as Hn.
    destruct (getSSLCertificateInfo env url h) as [native h1]. cbn [fst] in Hn.
    destruct (SslInfo.ssl_valid native); [now apply Hn|].
    pose proof (checkSSLWithChecker_whole url h1) as Hc.
    destruct (checkSSLWithChecker env url h1) as [checker h2]. cbn [fst] in Hc.
    destruct (SslInfo.ssl_valid checker); [now apply Hc | now left].
  - rewrite (selectSslInfo_not_https env url h Hs). split; [now left | discriminate].
Qed.

Lemma js_or_same (a : option string) : js_or a a = a.
Proof. unfold js_or. now destruct (truthy a). Qed.

(** The certificate part of a probe. *)
Lemma checkWebsiteStatus_record (url : string) (h : Trace) :
  exists status ssl_valid info t m,
    fst (checkWebsiteStatus env url h) = probe_record status ssl_valid info t m
    /\ whole_record info
    /\ (SslInfo.ssl_valid info = true ->
        ssl_valid = true /\ startsWith url "https://" = true).
Proof.
  destruct (selectSslInfo_whole url (Fetch url :: h)) as [Hwhole Hs].
  destruct (fetch_outcome env h url) as [code|error] eqn:Hf.
  - rewrite (checkWebsiteStatus_responded env url h code Hf). cbn [fst].
    do 5 eexists. split; [reflexivity|]. split; [exact Hwhole|].
    intros Hv. rewrite Hv, (Hs Hv), orb_true_r. now split.
  - rewrite (checkWebsiteStatus_rejected env url h error Hf). cbn [fst].
    do 5 eexists. split; [reflexivity|]. split; [exact Hwhole|].
    intros Hv. split; [exact Hv | exact (Hs Hv)].
Qed.

End Records.

(** ** The host handed to the checker *)

Section CheckerHost.

Lemma startsWith_append (p r : string) : startsWith (p ++ r) p = true.
Proof. apply startsWith_spec. now exists r. Qed.

Lemma endsWith_append (r p : string) : endsWith (r ++ p) p = true.
Proof.
  induction r as [|c r IH]; cbn [append endsWith].
  - destruct p; cbn [endsWith]; now rewrite String.eqb_refl.
  - rewrite IH. apply orb_true_r.
Qed.

Lemma length_append (a b : string) :
  String.length (a ++ b) = (String.length a + String.length b)%nat.
Proof. induction a; cbn; [reflexivity | now rewrite IHa]. Qed.

Lemma substring0_append (r x : string) : substring0 (String.length r) (r ++ x) = r.
Proof.
  unfold substring0. induction r as [|c r IH]; cbn.
  - now destruct x.
  - now rewrite IH.
Qed.

Lemma checker_host_slash (r : string) : checker_host ("https://" ++ r ++ "/") = r.
Proof.
  unfold checker_host. rewrite startsWith_append.
  change (drop 8 ("https://" ++ r ++ "/")) with (r ++ "/").
  rewrite endsWith_append, length_append.
  cbn [String.length]. replace (String.length r + 1 - 1)%nat with (String.length r) by lia.
  apply substring0_append.
Qed.

Lemma checker_host_plain (r : string) :
  endsWith r "/" = false -> checker_host ("https://" ++ r) = r.
Proof.
  intros He. unfold checker_host. rewrite startsWith_append.
  change (drop 8 ("https://" ++ r)) with r. now rewrite He.
Qed.

End CheckerHost.

(** The checker is asked about the URL without its scheme and without one
    trailing slash: a URL and the same URL with a slash appended lead to the
    same call, and whatever follows the scheme, a path included, is passed
    on as it is. *)
Theorem checkSSLWithChecker_host (env : Env) (rest : string) (h : Trace) :
  snd (checkSSLWithChecker env ("https://" ++ rest ++ "/") h) = SslChecker rest :: h
  /\ (endsWith rest "/" = false ->
      snd (checkSSLWithChecker env ("https://" ++ rest) h) = SslChecker rest :: h).
Proof.
  split.
  - rewrite checkSSLWithChecker_trace by apply startsWith_append.
    now rewrite checker_host_slash.
  - intros He. rewrite checkSSLWithChecker_trace by apply startsWith_append.
    now rewrite checker_host_plain.
Qed.

Lemma checkSSLWithChecker_host_witness :
  endsWith "example.com/status" "/" = false
  /\ snd (checkSSLWithChecker healthy "https://example.com/status" [])
     = [SslChecker "example.com/status"].
Proof.
  split; [reflexivity|].
  exact (proj2 (checkSSLWithChecker_host healthy "example.com/status" []) eq_refl).
Defined.

(** ** More on the classifier and on messages *)

(** Text around a URL never takes the hardened classification away: when a
    URL is classified hardened, so is every string that contains it, in any
    letter case, for instance the same address with a subdomain in front
    or a path behind. *)
Theorem needsSpecialHandling_extends (url before after : string) :
  needsSpecialHandling url = true ->
  needsSpecialHandling (before ++ url ++ after) = true.
Proof.
  rewrite !needsSpecialHandling_iff. intros [site [Hin Hpiece]].
  exists site. split; [exact Hin|].
  apply piece_trans with (toLowerCase url); [exact Hpiece|].
  apply piece_lower. now exists before, after.
Qed.

Lemma needsSpecialHandling_extends_witness :
  needsSpecialHandling "amazon.de" = true
  /\ needsSpecialHandling ("https://www." ++ "amazon.de" ++ "/gp/cart") = true.
Proof.
  split; [reflexivity|].
  exact (needsSpecialHandling_extends "amazon.de" "https://www." "/gp/cart" eq_refl).
Defined.

Section Prefixes.

Lemma substring0_prefix (n : nat) (s : string) : exists rest, s = substring0 n s ++ rest.
Proof.
  unfold substring0. revert s. induction n as [|n IH]; intros s.
  - exists s. now destruct s.
  - destruct s as [|c s]; [now exists ""|].
    destruct (IH s) as [rest Hrest]. exists rest. cbn. now rewrite <- Hrest.
Qed.

Lemma substring0_whole (n : nat) (s : string) :
  (String.length s <= n)%nat -> substring0 n s = s.
Proof.
  unfold substring0. revert s. induction n as [|n IH]; intros s Hlen.
  - destruct s; [reflexivity | cbn in Hlen; lia].
  - destruct s as [|c s]; [reflexivity|]. cbn in *. rewrite IH; [reflexivity | lia].
Qed.

End Prefixes.

(** The message of a probe that failed for a reason other than an abort is
    the start of the message of the error: the whole of it when it has at
    most 100 characters, its first 100 characters otherwise. *)
Theorem probe_error_message_is_prefix (error : JsError.t) (message : string) :
  JsError.name error <> "AbortError" ->
  JsError.message error = Some message ->
  message <> "" ->
  (exists rest, message = probe_error_message error ++ rest)
  /\ ((String.length message <= 100)%nat -> probe_error_message error = message)
  /\ ((100 < String.length message)%nat ->
      String.length (probe_error_message error) = 100%nat).
Proof.
  intros Hname Hmessage Hne. unfold probe_error_message.
  destruct (String.eqb_spec (JsError.name error) "AbortError") as [|_]; [contradiction|].
  rewrite Hmessage. apply truthy_string_nonempty in Hne. rewrite Hne.
  split; [apply substring0_prefix|]. split; [apply substring0_whole|].
  intros Hlong. destruct (substring0_prefix 100 message) as [rest Hrest].
  pose proof (substring0_length 100 message) as Hle.
  destruct (Nat.eq_dec (String.length (substring0 100 message)) 100) as [|Hshort];
    [assumption|].
  exfalso.
  assert (Hlt : (String.length (substring0 100 message) < 100)%nat) by lia.
  clear - Hlt Hlong. unfold substring0 in Hlt.
  revert Hlt Hlong. generalize 100%nat as n. revert message.
  induction message as [|c s IH]; intros n Hlt Hlong; [cbn in Hlong; lia|].
  destruct n as [|n]; [lia|]. cbn in *. apply (IH n); lia.
Qed.

Lemma probe_error_message_is_prefix_witness :
  JsError.name (JsError.mk "TypeError" (Some "fetch failed")) <> "AbortError"
  /\ probe_error_message (JsError.mk "TypeError" (Some "fetch failed")) = "fetch failed".
Proof.
  split; [discriminate|].
  refine (proj1 (proj2 (probe_error_message_is_prefix
                          (JsError.mk "TypeError" (Some "fetch failed")) "fetch failed"
                          _ eq_refl _)) _).
  - discriminate.
  - discriminate.
  - cbn. lia.
Defined.

(** ** Route handler *)

Section Handler.

Variable env : Env.

(** [(await takeScreenshot(...)) || undefined] keeps every path: a path
    starts with "/screenshots/" and is not the empty string. *)
Lemma takeScreenshot_truthy (url : string) (id : Z) (h : Trace) (shot : option string) :
  fst (takeScreenshot env url id 0 h) = inr shot ->
  truthy shot = match shot with
                | Some _ => true
                | None => false
                end.
Proof.
  destruct shot as [path|]; [|reflexivity]. intros Hp.
  destruct (takeScreenshot_call_shot env url id path 0 false h Hp)
    as [newer [earlier [_ [_ ->]]]].
  reflexivity.
Qed.

(** One iteration, in terms of the probe and the capture it runs. *)
Lemma process_website_unfold (website : Website) (h : Trace) :
  process_website env website h =
  let probe := checkWebsiteStatus env (url website) h in
  match takeScreenshot env (url website) (id website) 0 (snd probe) with
  | (inl error, h2) => (inl error, h2)
  | (inr shot, h2) =>
      (inr (make_result website shot (override website shot (fst probe))), h2)
  end.
Proof.
  cbv zeta. unfold process_website. cbv [bindB lift retB].
  destruct (checkWebsiteStatus env (url website) h) as [statusCheck h1]. cbn [fst snd].
  pose proof (takeScreenshot_truthy (url website) (id website) h1) as Ht.
  destruct (takeScreenshot env (url website) (id website) 0 h1) as [[error|shot] h2];
    [reflexivity|].
  cbn [fst] in Ht. rewrite (Ht shot eq_refl). now destruct shot.
Qed.

(** The result of an iteration that completes. *)
Lemma process_website_result (website : Website) (h : Trace)
  (result : ScreenshotResult.t) :
  fst (process_website env website h) = inr result ->
  exists shot,
    fst (takeScreenshot env (url website) (id website) 0
           (snd (checkWebsiteStatus env (url website) h))) = inr shot
    /\ truthy shot = match shot with
                     | Some _ => true
                     | None => false
                     end
    /\ result = make_result website shot
                  (override website shot (fst (checkWebsiteStatus env (url website) h))).
Proof.
  rewrite process_website_unfold. cbv zeta.
  pose proof (takeScreenshot_truthy (url website) (id website)
                (snd (checkWebsiteStatus env (url website) h))) as Ht.
  destruct (takeScreenshot env (url website) (id website) 0 _) as [[error|shot] h2];
    [discriminate|].
  cbn [fst] in *. intros [= <-]. exists shot.
  split; [reflexivity|]. split; [now apply Ht | reflexivity].
Qed.

(** An iteration throws exactly when its capture does, and the same error. *)
Lemma process_website_throws (website : Website) (h : Trace) (error : JsError.t) :
  fst (process_website env website h) = inl error <->
  fst (takeScreenshot env (url website) (id website) 0
         (snd (checkWebsiteStatus env (url website) h))) = inl error.
Proof.
  rewrite process_website_unfold. cbv zeta.
  destruct (takeScreenshot env (url website) (id website) 0 _) as [[e|shot] h2];
    cbn [fst]; split; congruence.
Qed.

Lemma process_website_trace (website : Website) (h : Trace) :
  snd (process_website env website h)
  = snd (takeScreenshot env (url website) (id website) 0
           (snd (checkWebsiteStatus env (url website) h))).
Proof.
  rewrite process_website_unfold. cbv zeta.
  now destruct (takeScreenshot env (url website) (id website) 0 _) as [[e|shot] h2].
Qed.

(** The loop appends one result per site, in order. *)
Lemma process_websites_spec (P : Website -> ScreenshotResult.t -> Prop) :
  (forall website h result, fst (process_website env website h) = inr result ->
                            P website result) ->
  forall websites results h rs,
    fst (process_websites env websites results h) = inr rs ->
    exists new, rs = (results ++ new)%list /\ Forall2 P websites new.
Proof.
  intros HP. induction websites as [|website rest IH]; intros results h rs.
  - cbn. intros [= <-]. exists []. split; [now rewrite app_nil_r | constructor].
  - cbn [process_websites]. unfold bindB.
    specialize (HP website h).
    destruct (process_website env website h) as [[error|result] h1]; [discriminate|].
    intros Hrs. destruct (IH (results ++ [result])%list h1 rs Hrs) as [new [-> Hall]].
    exists (result :: new). split.
    + now rewrite <- app_assoc.
    + constructor; [now apply HP | assumption].
Qed.

(** [POST] on an array that is not empty is the loop inside the [try]
    block. *)
Lemma POST_loop (websites : list Website) (h : Trace) :
  websites <> [] ->
  POST env (Body (JsArray websites)) h
  = match process_websites env websites [] h with
    | (inr results, h') => (Results results, h')
    | (inl _, h') => (Failure 500 "Internal server error", h')
    end.
Proof.
  intros Hne. destruct websites as [|website rest]; [contradiction|].
  unfold POST. cbn [to_boolean isArray negb orb elements_of List.length Nat.eqb].
  unfold try_catch, bindB, retB, ret.
  now destruct (process_websites env (website :: rest) [] h) as [[error|results] h'].
Qed.

(** What [POST] answers with results. *)
Lemma POST_results (P : Website -> ScreenshotResult.t -> Prop) :
  (forall website h result, fst (process_website env website h) = inr result ->
                            P website result) ->
  forall request h results,
    fst (POST env request h) = Results results ->
    exists websites,
      request = Body (JsArray websites) /\ websites <> [] /\ Forall2 P websites results.
Proof.
  intros HP request h results. destruct request as [| |websites]; try discriminate.
  destruct websites as [| |b|n|s| |websites];
    try (unfold POST; cbn [to_boolean isArray elements_of negb];
         rewrite ?orb_true_r; cbn [orb]; discriminate).
  destruct websites as [|website rest]; [discriminate|].
  rewrite POST_loop by discriminate.
  pose proof (process_websites_spec P HP (website :: rest) [] h) as Hspec.
  destruct (process_websites env (website :: rest) [] h) as [[error|rs] h'];
    [discriminate|].
  cbn [fst] in *. intros [= <-]. destruct (Hspec rs eq_refl) as [new [-> Hall]].
  exists (website :: rest). split; [reflexivity|]. split; [discriminate | exact Hall].
Qed.

End Handler.

(** C1: for every site whose iteration completes, the screenshot path of
    the result is the path the capturer produced.  When there is a path and
    the probe's status was not [Up], the result's status is [Up] and, on an
    https URL, [ssl_valid] is true; without a path, or when the probe already
    said [Up], status and [ssl_valid] are the probe's.  The message is absent
    when there is a path and is the probe's message otherwise.  An iteration
    completes whenever the capture returns.  Hence in every answer of [POST]
    a result with a screenshot path has status [Up], and a result with a
    message has no screenshot path. *)
Theorem reconciliation_override (env : Env) :
  (forall website h result,
     fst (process_website env website h) = inr result ->
     let probe := fst (checkWebsiteStatus env (url website) h) in
     exists shot,
       fst (takeScreenshot env (url website) (id website) 0
              (snd (checkWebsiteStatus env (url website) h))) = inr shot
       /\ ScreenshotResult.screenshot_path result = shot
       /\ (shot <> None -> StatusCheck.status probe <> Up ->
             ScreenshotResult.status result = Up
             /\ (startsWith (url website) "https://" = true ->
                   ScreenshotResult.ssl_valid result = true))
       /\ (shot = None \/ StatusCheck.status probe = Up ->
             ScreenshotResult.status result = StatusCheck.status probe
             /\ ScreenshotResult.ssl_valid result = StatusCheck.ssl_valid probe)
       /\ (shot <> None -> ScreenshotResult.status result = Up)
       /\ (shot <> None -> ScreenshotResult.error_message result = None)
       /\ (shot = None ->
             ScreenshotResult.error_message result = StatusCheck.error_message probe))
  /\ (forall website h shot,
        fst (takeScreenshot env (url website) (id website) 0
               (snd (checkWebsiteStatus env (url website) h))) = inr shot ->
        exists result, fst (process_website env website h) = inr result)
  /\ (forall request h results,
        fst (POST env request h) = Results results ->
        Forall (fun r =>
                  (ScreenshotResult.screenshot_path r <> None ->
                   ScreenshotResult.status r = Up)
                  /\ (ScreenshotResult.error_message r <> None ->
                        ScreenshotResult.screenshot_path r = None))
               results).
Proof.
  assert (Hsite : forall website h result,
     fst (process_website env website h) = inr result ->
     let probe := fst (checkWebsiteStatus env (url website) h) in
     exists shot,
       fst (takeScreenshot env (url website) (id website) 0
              (snd (checkWebsiteStatus env (url website) h))) = inr shot
       /\ ScreenshotResult.screenshot_path result = shot
       /\ (shot <> None -> StatusCheck.status probe <> Up ->
             ScreenshotResult.status result = Up
             /\ (startsWith (url website) "https://" = true ->
                   ScreenshotResult.ssl_valid result = true))
       /\ (shot = None \/ StatusCheck.status probe = Up ->
             ScreenshotResult.status result = StatusCheck.status probe
             /\ ScreenshotResult.ssl_valid result = StatusCheck.ssl_valid probe)
       /\ (shot <> None -> ScreenshotResult.status result = Up)
       /\ (shot <> None -> ScreenshotResult.error_message result = None)
       /\ (shot = None ->
             ScreenshotResult.error_message result = StatusCheck.error_message probe)).
  { intros website h result Hresult. cbv zeta.
    destruct (process_website_result env website h result Hresult)
      as [shot [Hshot [Ht ->]]].
    exists shot. split; [exact Hshot|]. clear Hshot Hresult.
    destruct shot as [path|];
      destruct (fst (checkWebsiteStatus env (url website) h))
        as [status ssl r i e x d t m];
      unfold make_result, override;
      cbn [StatusCheck.status StatusCheck.ssl_valid StatusCheck.error_message];
      rewrite Ht; destruct status; cbn;
      repeat split; try congruence;
      try (intros ->; reflexivity);
      match goal with
      | H : _ \/ _ |- _ => destruct H; congruence
      end. }
  split; [exact Hsite|]. split.
  - intros website h shot Hshot. rewrite process_website_unfold. cbv zeta.
    destruct (takeScreenshot env (url website) (id website) 0 _) as [[e|s] h2];
      [discriminate|]. eexists. reflexivity.
  - intros request h results HPOST.
    destruct (POST_results env
                (fun _ r => (ScreenshotResult.screenshot_path r <> None ->
                             ScreenshotResult.status r = Up)
                            /\ (ScreenshotResult.error_message r <> None ->
                                  ScreenshotResult.screenshot_path r = None))
                ) with (request := request) (h := h) (results := results)
      as [websites [_ [_ Hall]]]; [|exact HPOST|].
    + intros website k result Hresult.
      destruct (Hsite website k result Hresult)
        as [shot [_ [Hpath [_ [_ [Hup [Hnone Hmsg]]]]]]].
      rewrite Hpath. split; [exact Hup|].
      intros Hm. destruct shot; [|reflexivity].
      exfalso. apply Hm. apply Hnone. discriminate.
    + clear HPOST. induction Hall; constructor; assumption.
Qed.

Lemma reconciliation_override_witness :
  StatusCheck.status (fst (checkWebsiteStatus guarded "https://shop.example" [])) = Down
  /\ fst (takeScreenshot guarded "https://shop.example" 3 0
            (snd (checkWebsiteStatus guarded "https://shop.example" [])))
     = inr (Some "/screenshots/3_1700000011000.png")
  /\ exists result,
       fst (process_website guarded {| id := 3; url := "https://shop.example" |} [])
       = inr result
       /\ ScreenshotResult.status result = Up
       /\ ScreenshotResult.ssl_valid result = true.
Proof.
  split; [reflexivity|]. split; [reflexivity|].
  destruct (proj1 (proj2 (reconciliation_override guarded))
              {| id := 3; url := "https://shop.example" |} []
              (Some "/screenshots/3_1700000011000.png") eq_refl)
    as [result Hresult].
  exists result. split; [exact Hresult|].
  destruct (proj1 (reconciliation_override guarded)
              {| id := 3; url := "https://shop.example" |} [] result Hresult)
    as [shot [Hshot [_ [Hoverride _]]]].
  assert (Hsome : shot = Some "/screenshots/3_1700000011000.png").
  { cbn [id url] in Hshot.
    change (fst (takeScreenshot guarded "https://shop.example" 3 0
                   (snd (checkWebsiteStatus guarded "https://shop.example" []))))
      with (@inr JsError.t _ (Some "/screenshots/3_1700000011000.png")) in Hshot.
    now injection Hshot as <-. }
  destruct Hoverride as [Hstatus Hssl]; [rewrite Hsome; discriminate | discriminate |].
  split; [exact Hstatus | exact (Hssl eq_refl)].
Defined.

Section Loop.

Variable env : Env.

Lemma process_website_site (website : Website) (h : Trace) (result : ScreenshotResult.t) :
  fst (process_website env website h) = inr result ->
  site_of result = (id website, url website).
Proof.
  intros Hresult.
  destruct (process_website_result env website h result Hresult) as [shot [_ [_ ->]]].
  reflexivity.
Qed.

Lemma sites_in_order (websites : list Website) (results : list ScreenshotResult.t) :
  Forall2 (fun w r => site_of r = (id w, url w)) websites results ->
  List.length results = List.length websites
  /\ map site_of results = map (fun website => (id website, url website)) websites.
Proof.
  induction 1 as [|w r ws rs Hwr _ [IHlen IHmap]]; [split; reflexivity|].
  cbn [List.length map]. split; [now rewrite IHlen | now rewrite Hwr, IHmap].
Qed.

(** The calls of a probe are on top of the trace it started from. *)
Lemma checkWebsiteStatus_extends (url : string) (h : Trace) :
  extends_with (fun _ => True) h (snd (checkWebsiteStatus env url h)).
Proof.
  rewrite checkWebsiteStatus_trace.
  destruct (selectSslInfo_calls env url (Fetch url :: h)) as [tls [checker [-> _]]].
  exists (checker ++ tls ++ [Fetch url])%list. split.
  - now rewrite <- !app_assoc.
  - apply Forall_forall. trivial.
Qed.

(** An iteration throws only what a closing of a browser threw. *)
Lemma process_website_thrown (website : Website) (h : Trace) (error : JsError.t) :
  fst (process_website env website h) = inl error ->
  close_failed env h (snd (process_website env website h)) error.
Proof.
  intros Hthrown. rewrite process_website_trace.
  apply process_website_throws in Hthrown.
  eapply close_failed_since; [apply checkWebsiteStatus_extends|].
  now apply takeScreenshot_call_thrown.
Qed.

Lemma process_website_extends (website : Website) (h : Trace) :
  extends_with (fun _ => True) h (snd (process_website env website h)).
Proof.
  rewrite process_website_trace.
  eapply extends_trans; [apply checkWebsiteStatus_extends|].
  eapply extends_weaken; [|apply takeScreenshot_call_footprint]. trivial.
Qed.

Lemma process_websites_thrown (websites : list Website) (error : JsError.t) :
  forall results h,
    fst (process_websites env websites results h) = inl error ->
    close_failed env h (snd (process_websites env websites results h)) error.
Proof.
  induction websites as [|website rest IH]; intros results h; [discriminate|].
  cbn [process_websites]. unfold bindB.
  pose proof (process_website_thrown website h error) as Hone.
  pose proof (process_website_extends website h) as Hext.
  destruct (process_website env website h) as [[e|result] h1]; cbn [fst snd] in *.
  - intros [= ->]. now apply Hone.
  - intros Hthrown. eapply close_failed_since; [exact Hext|]. now apply IH.
Qed.

(** What [POST] answers on a list of sites that is not empty. *)
Lemma POST_sites (websites : list Website) (h : Trace) :
  websites <> [] ->
  (exists results,
     fst (POST env (Body (JsArray websites)) h) = Results results
     /\ List.length results = List.length websites
     /\ map site_of results = map (fun website => (id website, url website)) websites)
  \/ (fst (POST env (Body (JsArray websites)) h) = Failure 500 "Internal server error"
      /\ exists error, close_failed env h (snd (POST env (Body (JsArray websites)) h)) error).
Proof.
  intros Hne. rewrite POST_loop by exact Hne.
  pose proof (process_websites_spec env (fun w r => site_of r = (id w, url w))
                process_website_site websites [] h) as Hspec.
  pose proof (fun error => process_websites_thrown websites error [] h) as Hthrown.
  destruct (process_websites env websites [] h) as [[error|results] h']; cbn [fst snd] in *.
  - right. split; [reflexivity|]. exists error. now apply Hthrown.
  - left. exists results. split; [reflexivity|].
    destruct (Hspec results eq_refl) as [new [-> Hall]].
    exact (sites_in_order websites new Hall).
Qed.

End Loop.

(** C2: on a list of sites that is not empty, [POST] answers either with
    the list of results, one per site and in the order of the sites, the ids
    and URLs of the results being those of the input position by position,
    or with status 500 and no result at all; the latter only after a call of
    [browser.close()] rejected.  When closing never fails the answer is the
    list of results, whatever the probe and the capture of a site came to. *)
Theorem POST_one_result_per_site (env : Env) (websites : list Website) (h : Trace) :
  websites <> [] ->
  ((exists results,
      fst (POST env (Body (JsArray websites)) h) = Results results
      /\ List.length results = List.length websites
      /\ map site_of results = map (fun website => (id website, url website)) websites)
   \/ (fst (POST env (Body (JsArray websites)) h) = Failure 500 "Internal server error"
       /\ exists error,
            close_failed env h (snd (POST env (Body (JsArray websites)) h)) error))
  /\ (closes_resolve env ->
      exists results,
        fst (POST env (Body (JsArray websites)) h) = Results results
        /\ List.length results = List.length websites
        /\ map site_of results = map (fun website => (id website, url website)) websites).
Proof.
  intros Hne. split; [now apply POST_sites|].
  intros Henv. destruct (POST_sites env websites h Hne) as [Hresults|[_ [error Hfailed]]];
    [exact Hresults|].
  destruct Hfailed as [newer [earlier [_ Ho]]]. rewrite Henv in Ho. discriminate.
Qed.

Lemma POST_one_result_per_site_witness :
  [ {| id := 1; url := "https://example.com" |};
    {| id := 2; url := "http://example.org" |} ] <> []
  /\ closes_resolve stalling
  /\ exists results,
       fst (POST stalling
              (Body (JsArray [ {| id := 1; url := "https://example.com" |};
                               {| id := 2; url := "http://example.org" |} ])) [])
       = Results results
       /\ map site_of results = [ (1, "https://example.com"); (2, "http://example.org") ].
Proof.
  split; [discriminate|]. split; [exact stalling_closes|].
  destruct (POST_one_result_per_site stalling
              [ {| id := 1; url := "https://example.com" |};
                {| id := 2; url := "http://example.org" |} ] [])
    as [_ Hresolved]; [discriminate|].
  destruct (Hresolved stalling_closes) as [results [Hresults [_ Hsites]]].
  exists results. split; [exact Hresults | exact Hsites].
Defined.

(** C2 as the specification states it fails: the site answers 200 and its
    page renders, the screenshot is written, and the closing of the browser
    rejects; the answer is status 500, without a result for the site. *)
Lemma POST_drops_sites_when_close_fails :
  let websites := [ {| id := 1; url := "https://example.com" |} ] in
  websites <> []
  /\ fst (POST jammed (Body (JsArray websites)) []) = Failure 500 "Internal server error"
  /\ ~ (exists results,
          fst (POST jammed (Body (JsArray websites)) []) = Results results
          /\ List.length results = List.length websites)
  /\ In (PageScreenshot "/app/public/screenshots/1_1700000011000.png")
        (snd (POST jammed (Body (JsArray websites)) [])).
Proof.
  cbv zeta. split; [discriminate|]. split; [reflexivity|]. split.
  - intros [results [Hresults _]]. discriminate.
  - right. left. reflexivity.
Qed.

(** C3: a [websites] value that is missing or otherwise falsy, that is not
    an array, or that is an empty array is answered with status 400 and no
    call is made for any site; and no request at all is answered with an
    empty list of results. *)
Theorem POST_rejects_missing_sites (env : Env) :
  (forall websites h,
     to_boolean websites = false \/ isArray websites = false \/ websites = JsArray [] ->
     POST env (Body websites) h = (Failure 400 "No websites provided", h))
  /\ (forall request h, fst (POST env request h) <> Results []).
Proof.
  split.
  - intros websites h [H | [H | ->]]; unfold POST.
    + rewrite H. reflexivity.
    + rewrite H. cbn [negb]. now rewrite orb_true_r.
    + reflexivity.
  - intros request h HPOST.
    destruct (POST_results env (fun _ _ => True) (fun _ _ _ _ => I) request h [] HPOST)
      as [websites [_ [Hne Hall]]].
    inversion Hall. congruence.
Qed.

Lemma POST_rejects_missing_sites_witness :
  POST healthy (Body (JsArray [])) [] = (Failure 400 "No websites provided", [])
  /\ POST healthy (Body JsUndefined) [] = (Failure 400 "No websites provided", [])
  /\ POST healthy (Body (JsString "https://example.com")) []
     = (Failure 400 "No websites provided", []).
Proof.
  split; [|split].
  - apply (proj1 (POST_rejects_missing_sites healthy)). right. right. reflexivity.
  - apply (proj1 (POST_rejects_missing_sites healthy)). left. reflexivity.
  - apply (proj1 (POST_rejects_missing_sites healthy)). right. left. reflexivity.
Defined.

(** C10: every probe carries a response time, on the branch of a response
    and on the branch of an error alike: the reading of the clock after the
    request minus the reading before it.  Every result of an iteration and
    every result [POST] answers with carries it too.  It is not negative
    exactly when the clock did not step back between the two readings. *)
Theorem response_time_present (env : Env) :
  (forall url h,
     StatusCheck.response_time (fst (checkWebsiteStatus env url h))
     = Some (Date_now env (Fetch url :: h) - Date_now env h))
  /\ (forall website h result,
        fst (process_website env website h) = inr result ->
        ScreenshotResult.response_time result
        = Some (Date_now env (Fetch (url website) :: h) - Date_now env h))
  /\ (forall request h results,
        fst (POST env request h) = Results results ->
        Forall (fun r => exists t, ScreenshotResult.response_time r = Some t) results)
  /\ (forall url h t,
        StatusCheck.response_time (fst (checkWebsiteStatus env url h)) = Some t ->
        (0 <= t <-> Date_now env h <= Date_now env (Fetch url :: h))).
Proof.
  assert (Hsite : forall website h result,
            fst (process_website env website h) = inr result ->
            ScreenshotResult.response_time result
            = Some (Date_now env (Fetch (url website) :: h) - Date_now env h)).
  { intros website h result Hresult.
    destruct (process_website_result env website h result Hresult) as [shot [_ [_ ->]]].
    unfold make_result, override. cbn [ScreenshotResult.response_time].
    destruct (truthy _ && negb _); apply checkWebsiteStatus_response_time. }
  split; [apply checkWebsiteStatus_response_time|]. split; [exact Hsite|]. split.
  - intros request h results HPOST.
    destruct (POST_results env
                (fun _ r => exists t, ScreenshotResult.response_time r = Some t))
      with (request := request) (h := h) (results := results)
      as [websites [_ [_ Hall]]]; [|exact HPOST|].
    + intros website k result Hresult. eexists. exact (Hsite website k result Hresult).
    + clear HPOST. induction Hall; constructor; assumption.
  - intros url h t. rewrite checkWebsiteStatus_response_time. intros [= <-]. lia.
Qed.

(** C10 as the specification states it fails: with a clock that is set back
    during the request, the response time is present and negative, in the
    probe and in the answer of [POST]. *)
Lemma response_time_negative :
  StatusCheck.response_time (fst (checkWebsiteStatus rewinding "https://example.com" []))
  = Some (-1000)
  /\ (exists r,
        fst (POST rewinding (Body (JsArray [ {| id := 1; url := "https://example.com" |} ])) [])
        = Results [r]
        /\ ScreenshotResult.response_time r = Some (-1000))
  /\ ~ (forall env url h,
          exists t, StatusCheck.response_time (fst (checkWebsiteStatus env url h)) = Some t
                    /\ 0 <= t).
Proof.
  split; [reflexivity|]. split.
  - eexists. split; reflexivity.
  - intros Hclaim. destruct (Hclaim rewinding "https://example.com" []) as [t [Ht Hpos]].
    vm_compute in Ht. injection Ht as <-. lia.
Qed.

(** ** Edges of the model *)

(** The window of the native strategy is closed: a certificate is still
    valid at the very millisecond it expires. *)
Lemma on_secure_connect_at_expiry (env : Env) (validFrom validTo : Z) :
  validFrom <= validTo ->
  SslInfo.ssl_valid
    (on_secure_connect env validTo
       (Some {| valid_from := Some validFrom; valid_to := Some validTo |})) = true.
Proof.
  intros H. cbn [on_secure_connect SslInfo.ssl_valid].
  apply andb_true_iff. split; apply Z.leb_le; lia.
Qed.

(** A body that is not JSON, or is [null], ends in the catch block of
    [POST], not in its guard. *)
Lemma POST_unreadable_body (env : Env) (h : Trace) :
  POST env NotJson h = (Failure 500 "Internal server error", h)
  /\ POST env NullBody h = (Failure 500 "Internal server error", h).
Proof. split; reflexivity. Qed.

(** ** The examples of the specification *)

(** A live https site whose certificate has forty days left. *)
Example live_site_example :
  fst (POST healthy (Body (JsArray [ {| id := 1; url := "https://example.com" |} ])) [])
  = Results
      [ {| ScreenshotResult.id := 1;
           ScreenshotResult.url := "https://example.com";
           ScreenshotResult.screenshot_path := Some "/screenshots/1_1700000010000.png";
           ScreenshotResult.status := Up;
           ScreenshotResult.ssl_valid := true;
           ScreenshotResult.ssl_renew_date := Some "1695000000000";
           ScreenshotResult.ssl_issued_date := Some "1695000000000";
           ScreenshotResult.ssl_expire_date := Some "1703459600000";
           ScreenshotResult.ssl_expires := Some "1703459600000";
           ScreenshotResult.ssl_days_remaining := Some 40;
           ScreenshotResult.response_time := Some 1000;
           ScreenshotResult.error_message := None |} ].
Proof. reflexivity. Qed.


(** A site without TLS never has [ssl_valid] nor any certificate field,
    whatever the probe and the capture come to. *)
Lemma plain_http_site (env : Env) (website : Website) (h : Trace)
  (result : ScreenshotResult.t) :
  startsWith (url website) "https://" = false ->
  fst (process_website env website h) = inr result ->
  ScreenshotResult.ssl_valid result = false
  /\ ScreenshotResult.ssl_renew_date result = None
  /\ ScreenshotResult.ssl_issued_date result = None
  /\ ScreenshotResult.ssl_expire_date result = None
  /\ ScreenshotResult.ssl_expires result = None
  /\ ScreenshotResult.ssl_days_remaining result = None.
Proof.
  intros Hs Hresult.
  destruct (process_website_result env website h result Hresult) as [shot [_ [_ ->]]].
  assert (Hprobe : exists status t m,
            fst (checkWebsiteStatus env (url website) h)
            = probe_record status false SslInfo.invalid t m).
  { destruct (fetch_outcome env h (url website)) as [code|error] eqn:Hf.
    - rewrite (checkWebsiteStatus_responded env _ h code Hf).
      rewrite (selectSslInfo_not_https env _ _ Hs), Hs. cbn [fst]. eauto.
    - rewrite (checkWebsiteStatus_rejected env _ h error Hf).
      rewrite (selectSslInfo_not_https env _ _ Hs). cbn [fst]. eauto. }
  destruct Hprobe as [status [t [m ->]]].
  unfold make_result, override, probe_record. rewrite Hs.
  destruct (truthy _ && negb _); cbn; repeat split; reflexivity.
Qed.

Lemma plain_http_site_witness :
  startsWith "http://example.com" "https://" = false
  /\ exists result,
       fst (process_website healthy {| id := 2; url := "http://example.com" |} [])
       = inr result
       /\ ScreenshotResult.ssl_valid result = false
       /\ ScreenshotResult.ssl_expire_date result = None.
Proof.
  split; [reflexivity|]. eexists. split; [reflexivity|].
  destruct (plain_http_site healthy {| id := 2; url := "http://example.com" |} [] _
              eq_refl eq_refl)
    as [Hvalid [_ [_ [Hexpire _]]]].
  split; [exact Hvalid | exact Hexpire].
Defined.

(** The certificate fields of a result come together or not at all: either
    none of the five is present, or all are, and then [ssl_valid] is true and
    the URL starts with https://.  In both cases [ssl_expires] repeats
    [ssl_expire_date] and [ssl_issued_date] repeats [ssl_renew_date]. *)
Theorem certificate_fields_together (env : Env) (website : Website) (h : Trace)
  (result : ScreenshotResult.t) :
  fst (process_website env website h) = inr result ->
  ScreenshotResult.ssl_expires result = ScreenshotResult.ssl_expire_date result
  /\ ScreenshotResult.ssl_issued_date result = ScreenshotResult.ssl_renew_date result
  /\ ((ScreenshotResult.ssl_expire_date result = None
       /\ ScreenshotResult.ssl_renew_date result = None
       /\ ScreenshotResult.ssl_days_remaining result = None)
      \/ (ScreenshotResult.ssl_expire_date result <> None
          /\ ScreenshotResult.ssl_renew_date result <> None
          /\ ScreenshotResult.ssl_days_remaining result <> None
          /\ ScreenshotResult.ssl_valid result = true
          /\ startsWith (url website) "https://" = true)).
Proof.
  intros Hresult.
  destruct (process_website_result env website h result Hresult) as [shot [_ [_ ->]]].
  destruct (checkWebsiteStatus_record env (url website) h)
    as [status [ssl [info [t [m [-> [Hwhole Hvalid]]]]]]].
  destruct Hwhole as [-> | [expire [issued [days ->]]]].
  - unfold make_result, override, probe_record. cbn.
    destruct (truthy _ && negb _); cbn; repeat split; left; repeat split.
  - destruct (Hvalid eq_refl) as [-> Hs].
    unfold make_result, override, probe_record. cbn.
    rewrite !js_or_same, Hs.
    destruct (truthy _ && negb _); cbn; repeat split; right; repeat split;
      discriminate.
Qed.

Lemma certificate_fields_together_witness :
  exists result,
    fst (process_website healthy {| id := 1; url := "https://example.com" |} []) = inr result
    /\ ScreenshotResult.ssl_expire_date result = Some "1703459600000"
    /\ ScreenshotResult.ssl_expires result = ScreenshotResult.ssl_expire_date result
    /\ ScreenshotResult.ssl_issued_date result = ScreenshotResult.ssl_renew_date result.
Proof.
  eexists. split; [reflexivity|]. split; [reflexivity|].
  destruct (certificate_fields_together healthy {| id := 1; url := "https://example.com" |}
              [] _ eq_refl)
    as [Hexpires [Hissued _]].
  split; [exact Hexpires | exact Hissued].
Defined.

(** ** Verdicts *)

Section Verdicts.

Variable env : Env.

Lemma substring0_nonempty (n : nat) (s : string) :
  s <> "" -> substring0 (S n) s <> "".
Proof. destruct s; [contradiction | discriminate]. Qed.

Lemma probe_error_message_nonempty (error : JsError.t) :
  probe_error_message error <> "".
Proof.
  unfold probe_error_message.
  destruct (JsError.name error =? "AbortError")%string; [discriminate|].
  destruct (JsError.message error) as [m|]; [|discriminate].
  destruct (truthy_string m) eqn:Hm; [|discriminate].
  apply substring0_nonempty. now apply truthy_string_nonempty.
Qed.

(** Path, status and message of a result, from the capture and the
    request. *)
Lemma process_website_verdict (website : Website) (h : Trace)
  (result : ScreenshotResult.t) :
  fst (process_website env website h) = inr result ->
  let shot := ScreenshotResult.screenshot_path result in
  let outcome := fetch_outcome env h (url website) in
  fst (takeScreenshot env (url website) (id website) 0
         (snd (checkWebsiteStatus env (url website) h))) = inr shot
  /\ ScreenshotResult.status result
     = match shot, outcome with
       | Some _, _ => Up
       | None, Responded code => if ok code then Up else Down
       | None, Rejected _ => Error
       end
  /\ ScreenshotResult.error_message result
     = match shot, outcome with
       | None, Rejected error => Some (probe_error_message error)
       | _, _ => None
       end.
Proof.
  intros Hresult. cbv zeta.
  destruct (process_website_result env website h result Hresult)
    as [shot [Hshot [Ht ->]]].
  cbn [make_result ScreenshotResult.screenshot_path]. split; [exact Hshot|].
  clear Hshot Hresult.
  destruct shot as [path|];
    destruct (fetch_outcome env h (url website)) as [code|error] eqn:Hf;
    [ rewrite (checkWebsiteStatus_responded env _ h code Hf)
    | rewrite (checkWebsiteStatus_rejected env _ h error Hf)
    | rewrite (checkWebsiteStatus_responded env _ h code Hf)
    | rewrite (checkWebsiteStatus_rejected env _ h error Hf) ];
    unfold make_result, override, probe_record;
    cbn [fst StatusCheck.status StatusCheck.error_message]; rewrite Ht;
    try destruct (ok code); repeat split.
Qed.

End Verdicts.

(** The verdict of a result, read off what happened: [Up] when there is a
    screenshot or the response was in the success range; [Down] when there is
    no screenshot and the response was outside it; [Error] when there is no
    screenshot and the request threw.  A message is present exactly on
    [Error]; it is never empty and never longer than 100 characters. *)
Theorem final_status (env : Env) (website : Website) (h : Trace)
  (result : ScreenshotResult.t) :
  fst (process_website env website h) = inr result ->
  let outcome := fetch_outcome env h (url website) in
  let path := ScreenshotResult.screenshot_path result in
  (ScreenshotResult.status result = Up <->
   path <> None \/ exists code, outcome = Responded code /\ ok code = true)
  /\ (ScreenshotResult.status result = Down <->
      path = None /\ exists code, outcome = Responded code /\ ok code = false)
  /\ (ScreenshotResult.status result = Error <->
      path = None /\ exists error, outcome = Rejected error)
  /\ (ScreenshotResult.error_message result <> None <->
      ScreenshotResult.status result = Error)
  /\ (forall m, ScreenshotResult.error_message result = Some m ->
                m <> "" /\ (String.length m <= 100)%nat).
Proof.
  intros Hresult. cbv zeta.
  destruct (process_website_verdict env website h result Hresult)
    as [_ [Hstatus Hmessage]].
  rewrite Hstatus, Hmessage.
  destruct (ScreenshotResult.screenshot_path result) as [shot|];
    destruct (fetch_outcome env h (url website)) as [code|error];
    try destruct (ok code) eqn:Hok.
  - (* screenshot, response in range *)
    split; [split; [left; discriminate | reflexivity]|].
    split; [split; [discriminate | intros [H _]; discriminate]|].
    split; [split; [discriminate | intros [H _]; discriminate]|].
    split; [split; [contradiction | discriminate]|]. discriminate.
  - (* screenshot, response out of range *)
    split; [split; [left; discriminate | reflexivity]|].
    split; [split; [discriminate | intros [H _]; discriminate]|].
    split; [split; [discriminate | intros [H _]; discriminate]|].
    split; [split; [contradiction | discriminate]|]. discriminate.
  - (* screenshot, request failed *)
    split; [split; [left; discriminate | reflexivity]|].
    split; [split; [discriminate | intros [H _]; discriminate]|].
    split; [split; [discriminate | intros [H _]; discriminate]|].
    split; [split; [contradiction | discriminate]|]. discriminate.
  - (* no screenshot, response in range *)
    split; [split; [right; exists code; now split | reflexivity]|].
    split; [split; [discriminate | intros [_ [c [[= <-] H]]]; congruence]|].
    split; [split; [discriminate | intros [_ [e H]]; discriminate]|].
    split; [split; [contradiction | discriminate]|]. discriminate.
  - (* no screenshot, response out of range *)
    split; [split; [discriminate | intros [H | [c [[= <-] H]]]; congruence]|].
    split; [split; [split; [reflexivity | exists code; now split] | reflexivity]|].
    split; [split; [discriminate | intros [_ [e H]]; discriminate]|].
    split; [split; [contradiction | discriminate]|]. discriminate.
  - (* no screenshot, request failed *)
    split; [split; [discriminate | intros [H | [c [H _]]]; [contradiction | discriminate]]|].
    split; [split; [discriminate | intros [_ [c [H _]]]; discriminate]|].
    split; [split; [split; [reflexivity | now exists error] | reflexivity]|].
    split; [split; [reflexivity | discriminate]|].
    intros m [= <-].
    split; [apply probe_error_message_nonempty | apply probe_error_message_length].
Qed.

Lemma final_status_witness :
  exists result,
    fst (process_website unreachable {| id := 1; url := "https://example.com" |} [])
    = inr result
    /\ ScreenshotResult.screenshot_path result = None
    /\ fetch_outcome unreachable [] "https://example.com"
       = Rejected (JsError.mk "TypeError" (Some "fetch failed"))
    /\ ScreenshotResult.status result = Error
    /\ ScreenshotResult.error_message result <> None.
Proof.
  eexists. split; [reflexivity|]. split; [reflexivity|]. split; [reflexivity|].
  destruct (final_status unreachable {| id := 1; url := "https://example.com" |} [] _
              eq_refl)
    as [_ [_ [Herror [Hmessage _]]]].
  assert (Hstatus : ScreenshotResult.status
                      (make_result {| id := 1; url := "https://example.com" |} None
                         (override {| id := 1; url := "https://example.com" |} None
                            (fst (checkWebsiteStatus unreachable "https://example.com" []))))
                    = Error).
  { apply Herror. split; [reflexivity|]. eexists. reflexivity. }
  split; [exact Hstatus | apply Hmessage; exact Hstatus].
Defined.

(** [ssl_valid] of a result is true exactly when the URL starts with
    https:// and at least one of three things holds: the response was in the
    success range, a certificate strategy found a valid certificate, or there
    is a screenshot. *)
Theorem final_ssl_valid (env : Env) (website : Website) (h : Trace)
  (result : ScreenshotResult.t) :
  fst (process_website env website h) = inr result ->
  let responded_ok :=
    match fetch_outcome env h (url website) with
    | Responded code => ok code
    | Rejected _ => false
    end in
  let certificate_valid :=
    SslInfo.ssl_valid (fst (selectSslInfo env (url website) (Fetch (url website) :: h))) in
  let has_screenshot :=
    match ScreenshotResult.screenshot_path result with
    | Some _ => true
    | None => false
    end in
  ScreenshotResult.ssl_valid result
  = startsWith (url website) "https://"
    && (responded_ok || certificate_valid || has_screenshot).
Proof.
  intros Hresult. cbv zeta.
  destruct (process_website_result env website h result Hresult) as [shot [_ [Ht ->]]].
  destruct (selectSslInfo_whole env (url website) (Fetch (url website) :: h))
    as [_ Hhttps].
  destruct shot as [path|];
    destruct (fetch_outcome env h (url website)) as [code|error] eqn:Hf;
    [ rewrite (checkWebsiteStatus_responded env _ h code Hf)
    | rewrite (checkWebsiteStatus_rejected env _ h error Hf)
    | rewrite (checkWebsiteStatus_responded env _ h code Hf)
    | rewrite (checkWebsiteStatus_rejected env _ h error Hf) ];
    unfold make_result, override, probe_record;
    cbn [fst StatusCheck.status StatusCheck.ssl_valid]; rewrite Ht;
    try destruct (ok code);
    cbn [Status_eqb negb andb orb ScreenshotResult.ssl_valid
         ScreenshotResult.screenshot_path StatusCheck.ssl_valid];
    destruct (SslInfo.ssl_valid _) eqn:Hv;
    try rewrite (Hhttps eq_refl);
    destruct (startsWith (url website) "https://"); reflexivity.
Qed.

Lemma final_ssl_valid_witness :
  exists result,
    fst (process_website guarded {| id := 3; url := "https://shop.example" |} []) = inr result
    /\ fetch_outcome guarded [] "https://shop.example" = Responded 403
    /\ SslInfo.ssl_valid
         (fst (selectSslInfo guarded "https://shop.example" [Fetch "https://shop.example"]))
       = false
    /\ ScreenshotResult.screenshot_path result = Some "/screenshots/3_1700000011000.png"
    /\ ScreenshotResult.ssl_valid result = true.
Proof.
  eexists. split; [reflexivity|]. split; [reflexivity|]. split; [reflexivity|].
  split; [reflexivity|].
  rewrite (final_ssl_valid guarded {| id := 3; url := "https://shop.example" |} [] _
             eq_refl).
  reflexivity.
Defined.

(** ** Runs over a list of sites *)

Section Runs.

Variable env : Env.

(** A probe requests its URL once and launches nothing. *)
Lemma checkWebsiteStatus_counts (url : string) (h : Trace) :
  fetched (snd (checkWebsiteStatus env url h)) = url :: fetched h
  /\ launches (snd (checkWebsiteStatus env url h)) = launches h.
Proof.
  rewrite checkWebsiteStatus_trace.
  destruct (selectSslInfo_calls env url (Fetch url :: h))
    as [tls [checker [-> [Htls [Hchecker _]]]]].
  destruct Htls as [-> | [urlObj [_ ->]]]; destruct Hchecker as [-> | ->];
    split; reflexivity.
Qed.

(** A capture requests nothing and launches once or twice. *)
Lemma takeScreenshot_counts (url : string) (id : Z) (h : Trace) :
  fetched (snd (takeScreenshot env url id 0 h)) = fetched h
  /\ (launches h + 1 <= launches (snd (takeScreenshot env url id 0 h)) <= launches h + 2)%nat.
Proof.
  unfold takeScreenshot. split; [|split].
  - destruct (takeScreenshot_call_footprint env url id 0 false h) as [new [-> Hnew]].
    now rewrite fetched_app, (fetched_capture env url id new Hnew).
  - apply takeScreenshot_call_launches_once.
  - pose proof (takeScreenshot_call_launches env url id 0 false h) as Hb.
    change (retries_left 0) with 1%nat in Hb. lia.
Qed.

(** An iteration, whether it completes or throws. *)
Lemma process_website_counts (website : Website) (h : Trace) :
  fetched (snd (process_website env website h)) = url website :: fetched h
  /\ (launches h + 1 <= launches (snd (process_website env website h))
      <= launches h + 2)%nat.
Proof.
  rewrite process_website_trace.
  destruct (checkWebsiteStatus_counts (url website) h) as [Hf Hl].
  destruct (takeScreenshot_counts (url website) (id website)
              (snd (checkWebsiteStatus env (url website) h))) as [Hf' Hl'].
  rewrite Hf', Hf, <- Hl. split; [reflexivity | exact Hl'].
Qed.

(** The loop reaches the sites in order, up to the last one or to the one
    whose capture throws. *)
Lemma process_websites_reach (websites : list Website) :
  forall results h,
  exists reached rest,
    websites = (reached ++ rest)%list
    /\ fetched (snd (process_websites env websites results h))
       = (rev (map url reached) ++ fetched h)%list
    /\ (launches h + List.length reached
        <= launches (snd (process_websites env websites results h))
        <= launches h + 2 * List.length reached)%nat
    /\ (forall rs, fst (process_websites env websites results h) = inr rs -> rest = [])
    /\ (websites <> [] -> reached <> []).
Proof.
  induction websites as [|website rest IH]; intros results h.
  - exists [], []. cbn. repeat split; try lia. contradiction.
  - cbn [process_websites]. unfold bindB.
    destruct (process_website_counts website h) as [Hf Hl].
    destruct (process_website env website h) as [[error|result] h1]; cbn [fst snd] in *.
    + exists [website], rest. cbn [map rev app List.length].
      split; [reflexivity|]. split; [exact Hf|]. split; [lia|].
      split; [discriminate | discriminate].
    + destruct (IH (results ++ [result])%list h1)
        as [reached [rest' [-> [IHf [IHl [IHrest _]]]]]].
      exists (website :: reached), rest'. cbn [map rev app List.length].
      split; [reflexivity|]. split; [now rewrite IHf, Hf, <- app_assoc|].
      split; [lia|]. split; [exact IHrest | discriminate].
Qed.

(** What [POST] reaches of a list of sites. *)
Lemma POST_reach (websites : list Website) (h : Trace) :
  exists reached rest,
    websites = (reached ++ rest)%list
    /\ fetched (snd (POST env (Body (JsArray websites)) h))
       = (rev (map url reached) ++ fetched h)%list
    /\ (launches h + List.length reached
        <= launches (snd (POST env (Body (JsArray websites)) h))
        <= launches h + 2 * List.length reached)%nat
    /\ (forall results,
          fst (POST env (Body (JsArray websites)) h) = Results results -> rest = [])
    /\ (websites <> [] -> reached <> []).
Proof.
  destruct websites as [|website sites].
  - exists [], []. cbn. repeat split; try lia. contradiction.
  - rewrite POST_loop by discriminate.
    destruct (process_websites_reach (website :: sites) [] h)
      as [reached [rest [Hsplit [Hf [Hl [Hrest Hne]]]]]].
    exists reached, rest.
    destruct (process_websites env (website :: sites) [] h) as [[error|rs] h'];
      cbn [fst snd] in *; repeat split; try assumption; try lia; try discriminate.
    intros results _. now apply (Hrest rs).
Qed.

(** The results do not depend on what the list held before the loop. *)
Lemma process_websites_acc (websites : list Website) :
  forall results h,
    process_websites env websites results h
    = match process_websites env websites [] h with
      | (inr rs, h') => (inr (results ++ rs)%list, h')
      | (inl error, h') => (inl error, h')
      end.
Proof.
  induction websites as [|website rest IH]; intros results h.
  - cbn. now rewrite app_nil_r.
  - cbn [process_websites]. unfold bindB.
    destruct (process_website env website h) as [[error|result] h1]; [reflexivity|].
    rewrite (IH (results ++ [result])%list h1), (IH ([] ++ [result])%list h1).
    destruct (process_websites env rest [] h1) as [[error|rs] h2]; [reflexivity|].
    cbn [app]. now rewrite <- app_assoc.
Qed.

Lemma process_websites_app (first second : list Website) (h : Trace) :
  process_websites env (first ++ second) [] h
  = match process_websites env first [] h with
    | (inr results1, h1) =>
        match process_websites env second [] h1 with
        | (inr results2, h2) => (inr (results1 ++ results2)%list, h2)
        | (inl error, h2) => (inl error, h2)
        end
    | (inl error, h1) => (inl error, h1)
    end.
Proof.
  revert h. induction first as [|website rest IH]; intros h.
  - cbn. now destruct (process_websites env second [] h) as [[error|rs] h2].
  - cbn [app process_websites]. unfold bindB.
    destruct (process_website env website h) as [[error|result] h1]; [reflexivity|].
    rewrite (process_websites_acc (rest ++ second) [result] h1).
    rewrite (process_websites_acc rest [result] h1).
    rewrite (IH h1).
    destruct (process_websites env rest [] h1) as [[error|rs1] h2]; [reflexivity|].
    destruct (process_websites env second [] h2) as [[error|rs2] h3]; [reflexivity|].
    cbn [app]. reflexivity.
Qed.

End Runs.

(** A run calls [fetch] once for every site it reaches, with the URL of the
    site, in the order of the list, and for nothing else; a run that answers
    with results has reached every site. *)
Theorem POST_probes_each_site_once (env : Env) (websites : list Website) (h : Trace) :
  exists reached rest,
    websites = (reached ++ rest)%list
    /\ fetched (snd (POST env (Body (JsArray websites)) h))
       = (rev (map url reached) ++ fetched h)%list
    /\ (forall results,
          fst (POST env (Body (JsArray websites)) h) = Results results ->
          reached = websites).
Proof.
  destruct (POST_reach env websites h) as [reached [rest [Hsplit [Hf [_ [Hrest _]]]]]].
  exists reached, rest. split; [exact Hsplit|]. split; [exact Hf|].
  intros results Hresults. rewrite Hsplit, (Hrest results Hresults).
  now rewrite app_nil_r.
Qed.

(** A capture is attempted for every site the loop reaches, whatever its
    probe said: a run over [n] sites launches at most [2 n] browsers and at
    least one; it launches at least one and at most two for every site it
    reaches, and a run that answers with results has reached all [n]. *)
Theorem POST_captures_every_site (env : Env) (websites : list Website) (h : Trace) :
  websites <> [] ->
  (launches h + 1 <= launches (snd (POST env (Body (JsArray websites)) h))
   <= launches h + 2 * List.length websites)%nat
  /\ (exists reached rest,
        websites = (reached ++ rest)%list
        /\ (launches h + List.length reached
            <= launches (snd (POST env (Body (JsArray websites)) h))
            <= launches h + 2 * List.length reached)%nat)
  /\ (forall results,
        fst (POST env (Body (JsArray websites)) h) = Results results ->
        (launches h + List.length websites
         <= launches (snd (POST env (Body (JsArray websites)) h)))%nat).
Proof.
  intros Hne.
  destruct (POST_reach env websites h) as [reached [rest [Hsplit [_ [Hl [Hrest Hreached]]]]]].
  assert (Hlen : List.length websites = (List.length reached + List.length rest)%nat)
    by (rewrite Hsplit; apply length_app).
  assert (Hone : (1 <= List.length reached)%nat).
  { specialize (Hreached Hne). destruct reached; [contradiction | cbn; lia]. }
  split; [lia|]. split.
  - exists reached, rest. split; [exact Hsplit | exact Hl].
  - intros results Hresults. rewrite (Hrest results Hresults) in Hlen. cbn in Hlen. lia.
Qed.

Lemma POST_captures_every_site_witness :
  [ {| id := 1; url := "https://example.com" |};
    {| id := 2; url := "http://example.org" |} ] <> []
  /\ (1 <= launches (snd (POST stalling
              (Body (JsArray [ {| id := 1; url := "https://example.com" |};
                               {| id := 2; url := "http://example.org" |} ])) [])) <= 4)%nat.
Proof.
  split; [discriminate|].
  apply (POST_captures_every_site stalling
           [ {| id := 1; url := "https://example.com" |};
             {| id := 2; url := "http://example.org" |} ] []).
  discriminate.
Defined.

(** Splitting a list of sites over two requests made one after the other
    changes nothing: when both requests are answered with results, the
    results of the whole list are those of the first part followed by those
    of the second, and the calls made are the same; when one of them fails,
    the request for the whole list fails the same way after the same calls,
    the second part not being run after a failure of the first. *)
Theorem POST_in_batches (env : Env) (first second : list Website) (h : Trace) :
  first <> [] -> second <> [] ->
  POST env (Body (JsArray (first ++ second))) h
  = match POST env (Body (JsArray first)) h with
    | (Results results1, h1) =>
        match POST env (Body (JsArray second)) h1 with
        | (Results results2, h2) => (Results (results1 ++ results2)%list, h2)
        | failure => failure
        end
    | failure => failure
    end.
Proof.
  intros H1 H2.
  rewrite (POST_loop env (first ++ second)) by (destruct first; [contradiction | discriminate]).
  rewrite (POST_loop env first) by exact H1.
  rewrite process_websites_app.
  destruct (process_websites env first [] h) as [[error|results1] h1]; [reflexivity|].
  rewrite (POST_loop env second) by exact H2.
  now destruct (process_websites env second [] h1) as [[error|results2] h2].
Qed.

Lemma POST_in_batches_witness :
  [ {| id := 1; url := "https://example.com" |} ] <> []
  /\ [ {| id := 2; url := "http://example.org" |} ] <> []
  /\ exists results1 results2 h1 h2,
       POST healthy (Body (JsArray [ {| id := 1; url := "https://example.com" |} ])) []
       = (Results results1, h1)
       /\ POST healthy (Body (JsArray [ {| id := 2; url := "http://example.org" |} ])) h1
          = (Results results2, h2)
       /\ POST healthy
            (Body (JsArray ([ {| id := 1; url := "https://example.com" |} ]
                            ++ [ {| id := 2; url := "http://example.org" |} ])%list)) []
          = (Results (results1 ++ results2)%list, h2).
Proof.
  split; [discriminate|]. split; [discriminate|].
  pose proof (POST_in_batches healthy
                [ {| id := 1; url := "https://example.com" |} ]
                [ {| id := 2; url := "http://example.org" |} ] []) as Hbatches.
  destruct (POST healthy (Body (JsArray [ {| id := 1; url := "https://example.com" |} ])) [])
    as [[results1|status error] h1] eqn:Hfirst; [|vm_compute in Hfirst; discriminate].
  destruct (POST healthy (Body (JsArray [ {| id := 2; url := "http://example.org" |} ])) h1)
    as [[results2|status error] h2] eqn:Hsecond.
  - exists results1, results2, h1, h2. split; [reflexivity|]. split; [exact Hsecond|].
    apply Hbatches; discriminate.
  - exfalso. vm_compute in Hfirst. injection Hfirst as <- <-.
    vm_compute in Hsecond. discriminate.
Defined.

(** ** The hydration fix *)

Section Hydration.

Import HydrationFix.

Lemma removeAttribute_absent (attrs : Attributes) (attr : string) :
  hasAttribute attrs attr = false -> removeAttribute attrs attr = attrs.
Proof.
  unfold hasAttribute, removeAttribute.
  induction attrs as [|a attrs IH]; [reflexivity|]. cbn [existsb filter].
  intros H. apply orb_false_iff in H. destruct H as [Ha Hrest].
  rewrite Ha. cbn [negb]. now rewrite IH.
Qed.

Lemma remove_step (attrs : Attributes) (attr : string) :
  (if hasAttribute attrs attr then removeAttribute attrs attr else attrs)
  = removeAttribute attrs attr.
Proof.
  destruct (hasAttribute attrs attr) eqn:H; [reflexivity|].
  symmetry. now apply removeAttribute_absent.
Qed.

Lemma filter_twice {A} (p q : A -> bool) (l : list A) :
  filter q (filter p l) = filter (fun x => p x && q x) l.
Proof.
  induction l as [|x l IH]; [reflexivity|]. cbn [filter].
  destruct (p x); cbn [filter andb]; [destruct (q x)|]; now rewrite IH.
Qed.

Lemma remove_all_filter (names : list string) (attrs : Attributes) :
  fold_left
    (fun body attr => if hasAttribute body attr then removeAttribute body attr else body)
    names attrs
  = filter (fun a => negb (listed names (fst a))) attrs.
Proof.
  revert attrs. induction names as [|name names IH]; intros attrs; cbn [fold_left].
  - cbn. induction attrs as [|a attrs IHa]; [reflexivity|]. cbn. now rewrite <- IHa.
  - rewrite remove_step, IH. unfold removeAttribute. rewrite filter_twice.
    apply filter_ext. intros a. unfold named, listed. cbn [existsb].
    now rewrite negb_orb.
Qed.

Lemma remove_each_filter (attrs : Attributes) :
  remove_each attrs
  = filter (fun a => negb (listed extensionAttributes (fst a))) attrs.
Proof. apply remove_all_filter. Qed.

Lemma listed_In (names : list string) (attr : string) :
  listed names attr = true <-> In attr names.
Proof.
  unfold listed. rewrite existsb_exists. split.
  - intros [x [Hin Hx]]. apply String.eqb_eq in Hx. now subst.
  - intros Hin. exists attr. split; [exact Hin | apply String.eqb_refl].
Qed.

Lemma hasAttribute_filter (keep : string -> bool) (attrs : Attributes) (attr : string) :
  hasAttribute (filter (fun a => keep (fst a)) attrs) attr
  = keep attr && hasAttribute attrs attr.
Proof.
  unfold hasAttribute, named.
  induction attrs as [|a attrs IH]; cbn [filter existsb]; [now rewrite andb_false_r|].
  destruct (keep (fst a)) eqn:Hk; cbn [existsb]; rewrite IH;
    destruct (String.eqb_spec (fst a) attr) as [He|Hne];
    try (rewrite <- He, Hk); cbn [orb andb]; reflexivity.
Qed.

Lemma remove_each_free (attrs : Attributes) :
  free_of extensionAttributes (remove_each attrs).
Proof.
  intros attr Hin. rewrite remove_each_filter.
  rewrite (hasAttribute_filter (fun n => negb (listed extensionAttributes n))).
  apply listed_In in Hin. now rewrite Hin.
Qed.

Lemma filter_free (attrs : Attributes) :
  free_of attributeFilter (remove_each attrs).
Proof.
  intros attr Hin. apply remove_each_free.
  cbn in Hin |- *. intuition.
Qed.

Lemma hasAttribute_set (attrs : Attributes) (attr value other : string) :
  hasAttribute (setAttribute attrs attr value) other
  = (attr =? other)%string || hasAttribute attrs other.
Proof.
  unfold hasAttribute, named.
  induction attrs as [|a attrs IH]; cbn [setAttribute existsb fst].
  - reflexivity.
  - unfold named. destruct (String.eqb_spec (fst a) attr) as [<-|Hne];
      cbn [existsb fst].
    + destruct (fst a =? other)%string; reflexivity.
    + rewrite IH. destruct (fst a =? other)%string, (attr =? other)%string; reflexivity.
Qed.

Lemma hasAttribute_remove (attrs : Attributes) (attr other : string) :
  hasAttribute (removeAttribute attrs attr) other = true ->
  hasAttribute attrs other = true.
Proof.
  unfold removeAttribute.
  rewrite (hasAttribute_filter (fun n => negb (n =? attr)%string)).
  intros H. now apply andb_true_iff in H.
Qed.

End Hydration.

(** The removal takes the seven listed attributes off the body and leaves
    every other attribute where it was, with its value and in the same
    order; a second run changes nothing; without a body nothing happens. *)
Theorem removeExtensionAttributes_keeps_the_rest (attrs : HydrationFix.Attributes) :
  HydrationFix.removeExtensionAttributes (Some attrs)
  = Some (filter (fun a => negb (HydrationFix.listed HydrationFix.extensionAttributes (fst a)))
                 attrs)
  /\ HydrationFix.free_of HydrationFix.extensionAttributes (HydrationFix.remove_each attrs)
  /\ HydrationFix.removeExtensionAttributes
       (HydrationFix.removeExtensionAttributes (Some attrs))
     = HydrationFix.removeExtensionAttributes (Some attrs)
  /\ HydrationFix.removeExtensionAttributes None = None.
Proof.
  cbn [HydrationFix.removeExtensionAttributes].
  split; [now rewrite remove_each_filter|].
  split; [apply remove_each_free|]. split; [|reflexivity].
  f_equal. rewrite !remove_each_filter, filter_twice.
  apply filter_ext. intros a. now destruct (negb _).
Qed.

Section Observer.

Import HydrationFix.

(** What holds of the page while the observer is connected. *)
Lemma step_keeps_clean (page : Page) (e : Event) :
  e <> Unmount ->
  observing page = true /\ free_of attributeFilter (body page) ->
  observing (step page e) = true /\ free_of attributeFilter (body (step page e)).
Proof.
  intros He [Hobs Hfree]. destruct e as [| |attr value|attr|]; cbn [step].
  - split; [reflexivity | apply filter_free].
  - destruct (timer page); cbn [observing body];
      [split; [exact Hobs | apply filter_free] | now split].
  - cbn [observing body]. split; [exact Hobs|]. unfold notify. rewrite Hobs.
    destruct (listed attributeFilter attr) eqn:Hl; cbn [andb]; [apply filter_free|].
    intros other Hin. rewrite hasAttribute_set, (Hfree other Hin), orb_false_r.
    apply String.eqb_neq. intros <-. apply listed_In in Hin. congruence.
  - destruct (hasAttribute (body page) attr); [|now split].
    cbn [observing body]. split; [exact Hobs|]. unfold notify. rewrite Hobs.
    destruct (listed attributeFilter attr); cbn [andb]; [apply filter_free|].
    intros other Hin.
    destruct (hasAttribute (removeAttribute (body page) attr) other) eqn:H; [|reflexivity].
    apply hasAttribute_remove in H. rewrite (Hfree other Hin) in H. discriminate.
  - contradiction.
Qed.

Lemma run_keeps_clean (events : list Event) :
  forall page,
    ~ In Unmount events ->
    observing page = true /\ free_of attributeFilter (body page) ->
    observing (run page events) = true
    /\ free_of attributeFilter (body (run page events)).
Proof.
  induction events as [|e events IH]; intros page Hno Hpage; [exact Hpage|].
  cbn [run fold_left]. apply IH.
  - intros Hin. apply Hno. now right.
  - apply step_keeps_clean; [|exact Hpage]. intros ->. apply Hno. now left.
Qed.

End Observer.

(** From the moment the effect has run until its cleanup, whatever other
    scripts do to the attributes of the body and whenever the timer fires,
    the body carries none of the six attributes the observer watches, once
    the callback of the observer has run. *)
Theorem observer_keeps_body_clean (page : HydrationFix.Page)
  (events : list HydrationFix.Event) :
  ~ In HydrationFix.Unmount events ->
  HydrationFix.free_of HydrationFix.attributeFilter
    (HydrationFix.body
       (HydrationFix.run (HydrationFix.step page HydrationFix.Mount) events)).
Proof.
  intros Hno. apply run_keeps_clean; [exact Hno|].
  split; [reflexivity | apply filter_free].
Qed.

Lemma observer_keeps_body_clean_witness :
  ~ In HydrationFix.Unmount
       [ HydrationFix.SetAttribute "data-gr-ext-installed" "";
         HydrationFix.TimerFires;
         HydrationFix.SetAttribute "class" "dark" ]
  /\ HydrationFix.body
       (HydrationFix.run
          (HydrationFix.step
             {| HydrationFix.body := [("class", "light"); ("cz-shortcut-listen", "true")];
                HydrationFix.timer := false; HydrationFix.observing := false |}
             HydrationFix.Mount)
          [ HydrationFix.SetAttribute "data-gr-ext-installed" "";
            HydrationFix.TimerFires;
            HydrationFix.SetAttribute "class" "dark" ])
     = [("class", "dark")]
  /\ HydrationFix.hasAttribute
       (HydrationFix.body
          (HydrationFix.run
             (HydrationFix.step
                {| HydrationFix.body := [("class", "light"); ("cz-shortcut-listen", "true")];
                   HydrationFix.timer := false; HydrationFix.observing := false |}
                HydrationFix.Mount)
             [ HydrationFix.SetAttribute "data-gr-ext-installed" "";
               HydrationFix.TimerFires;
               HydrationFix.SetAttribute "class" "dark" ]))
       "data-gr-ext-installed" = false.
Proof.
  assert (Hno : ~ In HydrationFix.Unmount
                    [ HydrationFix.SetAttribute "data-gr-ext-installed" "";
                      HydrationFix.TimerFires;
                      HydrationFix.SetAttribute "class" "dark" ]).
  { intros [H|[H|[H|[]]]]; discriminate. }
  split; [exact Hno|]. split; [reflexivity|].
  apply (observer_keeps_body_clean _ _ Hno). cbn. tauto.
Defined.

(** The observer does not watch [spellcheck]: setting it on the body is
    never answered by a removal, whether the observer is connected or not; it
    goes away with the next change of a watched attribute that the connected
    observer is told of. *)
Theorem late_spellcheck_stays (page : HydrationFix.Page) (value : string) :
  HydrationFix.hasAttribute
    (HydrationFix.body (HydrationFix.step page (HydrationFix.SetAttribute "spellcheck" value)))
    "spellcheck" = true
  /\ (forall attr value',
        HydrationFix.observing page = true ->
        In attr HydrationFix.attributeFilter ->
        HydrationFix.hasAttribute
          (HydrationFix.body
             (HydrationFix.step
                (HydrationFix.step page (HydrationFix.SetAttribute "spellcheck" value))
                (HydrationFix.SetAttribute attr value')))
          "spellcheck" = false).
Proof.
  split.
  - cbn [HydrationFix.step HydrationFix.body]. unfold HydrationFix.notify.
    change (HydrationFix.listed HydrationFix.attributeFilter "spellcheck") with false.
    rewrite andb_false_r, hasAttribute_set. reflexivity.
  - intros attr value' Hobs Hin.
    cbn [HydrationFix.step HydrationFix.body HydrationFix.observing].
    unfold HydrationFix.notify at 1. cbn [HydrationFix.observing].
    rewrite Hobs. apply listed_In in Hin. rewrite Hin. cbn [andb].
    apply remove_each_free. cbn. tauto.
Qed.
